(** * Contact Management App: a shallow embedding of [src/App.js]

    The development follows the source file top to bottom:
    - JavaScript strings, [String.prototype.trim] and the two regular
      expressions of the validators;
    - the mock backend [API] (an array of contact objects);
    - the form state of [ContactManagementApp] and its event handlers;
    - the timers of the mock backend, as a transition function on the
      state of the clock, the store and the pending timers.

    The theorems come after the definitions. *)

From Stdlib Require Import ZArith NArith Ascii String List Bool Lia.
From Stdlib Require Import DecimalString DecimalPos DecimalZ.
From stdpp Require Import gmap strings list.

Set Default Proof Using "Type".
Local Open Scope string_scope.
Local Open Scope list_scope.
Local Open Scope nat_scope.

(* ================================================================= *)
(** ** JavaScript strings *)

(** A JavaScript string is a sequence of UTF-16 code units.  Code units
    are numbers below [65536]; larger numbers never occur in a string,
    and every function below treats them as ordinary characters. *)
Definition code_unit : Type := N.
Definition jsstring : Type := list code_unit.

(** A string literal of the source (all of them are ASCII). *)
Definition str (s : string) : jsstring :=
  map N_of_ascii (list_ascii_of_string s).

(** WhiteSpace and LineTerminator code points of ECMAScript: the set
    stripped by [trim] and matched by the class escape [\s]. *)
Definition is_white_space (c : code_unit) : bool :=
  ((9 <=? c) && (c <=? 13) ||
   (c =? 32) || (c =? 160) || (c =? 5760) ||
   ((8192 <=? c) && (c <=? 8202)) ||
   (c =? 8232) || (c =? 8233) || (c =? 8239) || (c =? 8287) ||
   (c =? 12288) || (c =? 65279))%N.

(** The class escape [\d] (no [u] flag): the ten ASCII digits. *)
Definition is_digit (c : code_unit) : bool :=
  ((48 <=? c) && (c <=? 57))%N.

Fixpoint trimStart (s : jsstring) : jsstring :=
  match s with
  | c :: s' => if is_white_space c then trimStart s' else s
  | [] => []
  end.

Definition trimEnd (s : jsstring) : jsstring :=
  rev (trimStart (rev s)).

(** [String.prototype.trim] *)
Definition trim (s : jsstring) : jsstring := trimEnd (trimStart s).

(** JavaScript truthiness of a string: only the empty string is falsy. *)
Definition str_truthy (s : jsstring) : bool :=
  match s with [] => false | _ :: _ => true end.

(** Truthiness of a property read, [undefined] being falsy. *)
Definition prop_truthy (v : option jsstring) : bool :=
  match v with Some s => str_truthy s | None => false end.

(** [Number.prototype.toString] on an integer (radix 10), as used on
    [Date.now()]. *)
Definition Number_toString (z : Z) : jsstring :=
  str (NilZero.string_of_int (Z.to_int z)).

(* ================================================================= *)
(** ** Regular expressions

    The two patterns of the source use character classes, concatenation,
    [+] and [{10,}], anchored at both ends, so [RegExp.prototype.test]
    decides membership of the whole string in a regular language. *)

Inductive regex : Type :=
| Void : regex
| Eps : regex
| Class (p : code_unit -> bool) : regex
| Cat (r1 r2 : regex) : regex
| Alt (r1 r2 : regex) : regex
| Star (r : regex) : regex.

(** [r+] *)
Definition Plus (r : regex) : regex := Cat r (Star r).

(** [r{n,}] *)
Fixpoint AtLeast (n : nat) (r : regex) : regex :=
  match n with
  | O => Star r
  | S n' => Cat r (AtLeast n' r)
  end.

(** A literal character. *)
Definition Chr (c : code_unit) : regex := Class (N.eqb c).

Fixpoint nullable (r : regex) : bool :=
  match r with
  | Void => false
  | Eps => true
  | Class _ => false
  | Cat r1 r2 => nullable r1 && nullable r2
  | Alt r1 r2 => nullable r1 || nullable r2
  | Star _ => true
  end.

Fixpoint deriv (c : code_unit) (r : regex) : regex :=
  match r with
  | Void => Void
  | Eps => Void
  | Class p => if p c then Eps else Void
  | Cat r1 r2 =>
      if nullable r1
      then Alt (Cat (deriv c r1) r2) (deriv c r2)
      else Cat (deriv c r1) r2
  | Alt r1 r2 => Alt (deriv c r1) (deriv c r2)
  | Star r1 => Cat (deriv c r1) (Star r1)
  end.

(** [/^r$/.test(s)] *)
Fixpoint RegExp_test (r : regex) (s : jsstring) : bool :=
  match s with
  | [] => nullable r
  | c :: s' => RegExp_test (deriv c r) s'
  end.

(** The language of a regular expression. *)
Inductive Matches : regex -> jsstring -> Prop :=
| MEps : Matches Eps []
| MClass p c : p c = true -> Matches (Class p) [c]
| MCat r1 r2 s1 s2 :
    Matches r1 s1 -> Matches r2 s2 -> Matches (Cat r1 r2) (s1 ++ s2)
| MAltL r1 r2 s : Matches r1 s -> Matches (Alt r1 r2) s
| MAltR r1 r2 s : Matches r2 s -> Matches (Alt r1 r2) s
| MStarNil r : Matches (Star r) []
| MStarCons r s1 s2 :
    Matches r s1 -> Matches (Star r) s2 -> Matches (Star r) (s1 ++ s2).

(* ================================================================= *)
(** ** Validation functions (App.js, lines 74-82) *)

Definition at_sign : code_unit := 64%N.
Definition full_stop : code_unit := 46%N.
Definition hyphen : code_unit := 45%N.
Definition plus_sign : code_unit := 43%N.
Definition left_paren : code_unit := 40%N.
Definition right_paren : code_unit := 41%N.
Definition space : code_unit := 32%N.

(** [[^\s@]] *)
Definition email_atom (c : code_unit) : bool :=
  negb (is_white_space c || (c =? at_sign)%N).

(** [[\d\s\-\+\(\)]] *)
Definition phone_char (c : code_unit) : bool :=
  is_digit c || is_white_space c ||
  (c =? hyphen)%N || (c =? plus_sign)%N ||
  (c =? left_paren)%N || (c =? right_paren)%N.

(** [/^[^\s@]+@[^\s@]+\.[^\s@]+$/] *)
Definition emailRegex : regex :=
  Cat (Plus (Class email_atom))
      (Cat (Chr at_sign)
           (Cat (Plus (Class email_atom))
                (Cat (Chr full_stop) (Plus (Class email_atom))))).

(** [/^[\d\s\-\+\(\)]{10,}$/] *)
Definition phoneRegex : regex := AtLeast 10 (Class phone_char).

Definition validateEmail (email : jsstring) : bool :=
  RegExp_test emailRegex email.

Definition validatePhone (phone : jsstring) : bool :=
  RegExp_test phoneRegex phone.

(* ================================================================= *)
(** ** The mock backend [API] (App.js, lines 6-34) *)

(** A contact (and the data passed to [createContact]) is a plain
    JavaScript object whose property values are strings. *)
Abbreviation obj := (gmap string jsstring).

(** The [data] property of a response: absent ([deleteContact]), one
    contact ([createContact]) or an array ([getContacts]). *)
Inductive resp_data : Type :=
| NoData
| OneContact (c : obj)
| ContactArray (l : list obj).

Record Response := { success : bool; data : resp_data }.

Module API.

(** The [contacts] array at load time. *)
Definition contacts_init : list obj := [].

(** The object literal of lines 13-17:
    [{ _id: ..., ...contactData, createdAt: ... }].
    Properties are written left to right, so an own property [_id] of
    [contactData] replaces the generated one, and [createdAt] replaces
    whatever [contactData] carried under that name. *)
Definition newContact (now : Z) (iso : jsstring) (contactData : obj) : obj :=
  <["createdAt" := iso]> (contactData ∪ <["_id" := Number_toString now]> ∅).

(** [now] is the value read by [Date.now()] and [iso] the string
    returned by [new Date().toISOString()], both read after the delay. *)
Definition createContact (now : Z) (iso : jsstring) (contactData : obj)
    (contacts : list obj) : list obj * Response :=
  let c := newContact now iso contactData in
  (contacts ++ [c], {| success := true; data := OneContact c |}).

Definition getContacts (contacts : list obj) : list obj * Response :=
  (contacts, {| success := true; data := ContactArray (rev contacts) |}).

Definition deleteContact (id : jsstring) (contacts : list obj)
    : list obj * Response :=
  (filter (λ c : obj, c !! "_id" ≠ Some id) contacts,
   {| success := true; data := NoData |}).

End API.

(** The identifiers held by a collection, in order ([c._id] of each). *)
Definition ids (contacts : list obj) : list (option jsstring) :=
  (λ c : obj, c !! "_id") <$> contacts.

(** Number of entries of [l] equal to [c]. *)
Definition occurrences (c : obj) (l : list obj) : nat :=
  length (filter (λ x : obj, x = c) l).

(** The array carried by a response (empty when it carries none). *)
Definition response_list (r : Response) : list obj :=
  match data r with ContactArray l => l | _ => [] end.

(* ================================================================= *)
(** ** The component state (App.js, lines 36-52) *)

(** [formData]: always an object with exactly these four string
    properties (the initial value, every update and the reset keep the
    shape). *)
Record FormData := {
  name : jsstring;
  email : jsstring;
  phone : jsstring;
  message : jsstring
}.

(** The [name] attribute of the four inputs, i.e. [e.target.name]. *)
Inductive input_name : Type := InName | InEmail | InPhone | InMessage.

Definition key (f : input_name) : string :=
  match f with
  | InName => "name"
  | InEmail => "email"
  | InPhone => "phone"
  | InMessage => "message"
  end.

(** [formData[f]] *)
Definition get_field (f : input_name) (fd : FormData) : jsstring :=
  match f with
  | InName => name fd
  | InEmail => email fd
  | InPhone => phone fd
  | InMessage => message fd
  end.

(** [{ ...prev, [f]: value }] *)
Definition set_field (f : input_name) (value : jsstring) (prev : FormData)
    : FormData :=
  match f with
  | InName => {| name := value; email := email prev;
                 phone := phone prev; message := message prev |}
  | InEmail => {| name := name prev; email := value;
                  phone := phone prev; message := message prev |}
  | InPhone => {| name := name prev; email := email prev;
                  phone := value; message := message prev |}
  | InMessage => {| name := name prev; email := email prev;
                    phone := phone prev; message := value |}
  end.

(** [formData] seen as the plain object handed to [API.createContact]. *)
Definition formData_obj (fd : FormData) : obj :=
  <["message" := message fd]>
    (<["phone" := phone fd]>
       (<["email" := email fd]> (<["name" := name fd]> ∅))).

Definition formData_init : FormData :=
  {| name := []; email := []; phone := []; message := [] |}.

Record AppState := {
  formData : FormData;
  errors : gmap string jsstring;
  contacts : list obj;
  loading : bool;
  submitting : bool;
  showSuccess : bool
}.

Definition state_init : AppState :=
  {| formData := formData_init; errors := ∅; contacts := [];
     loading := false; submitting := false; showSuccess := false |}.

Definition setFormData (fd : FormData) (st : AppState) : AppState :=
  {| formData := fd; errors := errors st; contacts := contacts st;
     loading := loading st; submitting := submitting st;
     showSuccess := showSuccess st |}.

Definition setErrors (e : gmap string jsstring) (st : AppState) : AppState :=
  {| formData := formData st; errors := e; contacts := contacts st;
     loading := loading st; submitting := submitting st;
     showSuccess := showSuccess st |}.

Definition setContacts (l : list obj) (st : AppState) : AppState :=
  {| formData := formData st; errors := errors st; contacts := l;
     loading := loading st; submitting := submitting st;
     showSuccess := showSuccess st |}.

Definition setLoading (b : bool) (st : AppState) : AppState :=
  {| formData := formData st; errors := errors st; contacts := contacts st;
     loading := b; submitting := submitting st;
     showSuccess := showSuccess st |}.

Definition setSubmitting (b : bool) (st : AppState) : AppState :=
  {| formData := formData st; errors := errors st; contacts := contacts st;
     loading := loading st; submitting := b;
     showSuccess := showSuccess st |}.

Definition setShowSuccess (b : bool) (st : AppState) : AppState :=
  {| formData := formData st; errors := errors st; contacts := contacts st;
     loading := loading st; submitting := submitting st;
     showSuccess := b |}.

(** [Object.keys(o)]; only its length is ever used. *)
Definition Object_keys (o : gmap string jsstring) : list string :=
  (map_to_list o).*1.

(* ================================================================= *)
(** ** Validation of the form (App.js, lines 84-144) *)

Definition msg_name_required : jsstring := str "Name is required".
Definition msg_name_short : jsstring :=
  str "Name must be at least 2 characters".
Definition msg_email_required : jsstring := str "Email is required".
Definition msg_email_invalid : jsstring :=
  str "Please enter a valid email address".
Definition msg_phone_required : jsstring := str "Phone number is required".
Definition msg_phone_invalid : jsstring :=
  str "Please enter a valid phone number (at least 10 digits)".

(** The three [if / else if] blocks shared by [validateForm] and
    [handleBlur]: the message to record, or [None] when the field
    passes. *)
Definition check_name (fd : FormData) : option jsstring :=
  if negb (str_truthy (trim (name fd))) then Some msg_name_required
  else if (length (trim (name fd)) <? 2)%nat then Some msg_name_short
  else None.

Definition check_email (fd : FormData) : option jsstring :=
  if negb (str_truthy (trim (email fd))) then Some msg_email_required
  else if negb (validateEmail (email fd)) then Some msg_email_invalid
  else None.

Definition check_phone (fd : FormData) : option jsstring :=
  if negb (str_truthy (trim (phone fd))) then Some msg_phone_required
  else if negb (validatePhone (phone fd)) then Some msg_phone_invalid
  else None.

(** [newErrors.k = m] when a message is due, nothing otherwise. *)
Definition record_error (k : string) (m : option jsstring)
    (e : gmap string jsstring) : gmap string jsstring :=
  match m with Some s => <[k := s]> e | None => e end.

(** [newErrors.k = m] when a message is due, [delete newErrors.k]
    otherwise (the [else] branch that only [handleBlur] has). *)
Definition update_error (k : string) (m : option jsstring)
    (e : gmap string jsstring) : gmap string jsstring :=
  match m with Some s => <[k := s]> e | None => delete k e end.

(** The object [newErrors] built by [validateForm]. *)
Definition newErrors (fd : FormData) : gmap string jsstring :=
  record_error "phone" (check_phone fd)
    (record_error "email" (check_email fd)
       (record_error "name" (check_name fd) ∅)).

(** [validateForm()]: stores [newErrors] and tells whether it is empty. *)
Definition validateForm (st : AppState) : AppState * bool :=
  let e := newErrors (formData st) in
  (setErrors e st, (length (Object_keys e) =? 0)%nat).

(** [handleBlur(field)] *)
Definition handleBlur (field : string) (st : AppState) : AppState :=
  let e0 := errors st in
  let e1 := if decide (field = "name")
            then update_error "name" (check_name (formData st)) e0 else e0 in
  let e2 := if decide (field = "email")
            then update_error "email" (check_email (formData st)) e1 else e1 in
  let e3 := if decide (field = "phone")
            then update_error "phone" (check_phone (formData st)) e2 else e2 in
  setErrors e3 st.

(** [handleChange(e)] with [e.target = { name: f, value }]. *)
Definition handleChange (f : input_name) (value : jsstring) (st : AppState)
    : AppState :=
  let st1 := setFormData (set_field f value (formData st)) st in
  if prop_truthy (errors st !! key f)
  then setErrors (<[key f := []]> (errors st1)) st1
  else st1.

(* ================================================================= *)
(** ** The submit-enabling expression (App.js, lines 195-198) *)

(** The values [&&] can return here: a string or a boolean. *)
Inductive jsval : Type :=
| VStr (s : jsstring)
| VBool (b : bool).

Definition truthy (v : jsval) : bool :=
  match v with VStr s => str_truthy s | VBool b => b end.

(** [a && b] *)
Definition js_and (a b : jsval) : jsval := if truthy a then b else a.

Definition isFormValid (st : AppState) : jsval :=
  js_and
    (js_and
       (js_and (VStr (trim (name (formData st))))
               (VBool (validateEmail (email (formData st)))))
       (VBool (validatePhone (phone (formData st)))))
    (VBool (length (Object_keys (errors st)) =? 0)%nat).

(** [disabled={!isFormValid || submitting}] *)
Definition submit_disabled (st : AppState) : bool :=
  negb (truthy (isFormValid st)) || submitting st.

(* ================================================================= *)
(** ** Handlers that talk to the backend (App.js, lines 59-71, 156-193) *)

(** The backend as the component sees it: the [API.contacts] array
    together with a ghost record of the calls it has received. *)
Inductive api_call : Type :=
| CallCreate (contactData : obj)
| CallGet
| CallDelete (id : jsstring).

Record Backend := { api_contacts : list obj; api_calls : list api_call }.

Definition backend_init : Backend :=
  {| api_contacts := API.contacts_init; api_calls := [] |}.

Definition call_createContact (now : Z) (iso : jsstring) (d : obj)
    (b : Backend) : Backend * Response :=
  let '(cs, r) := API.createContact now iso d (api_contacts b) in
  ({| api_contacts := cs; api_calls := api_calls b ++ [CallCreate d] |}, r).

Definition call_getContacts (b : Backend) : Backend * Response :=
  let '(cs, r) := API.getContacts (api_contacts b) in
  ({| api_contacts := cs; api_calls := api_calls b ++ [CallGet] |}, r).

Definition call_deleteContact (id : jsstring) (b : Backend)
    : Backend * Response :=
  let '(cs, r) := API.deleteContact id (api_contacts b) in
  ({| api_contacts := cs; api_calls := api_calls b ++ [CallDelete id] |}, r).

(** [fetchContacts()], run once on mount, from the call to the end of
    its [finally], with no other event in between (the split into call
    and completion is [app_init] and [fetchContacts_done] below).  The
    mock never throws, so the [catch] blocks of the handlers are dead
    code. *)
Definition fetchContacts (sb : AppState * Backend) : AppState * Backend :=
  let '(st, b) := sb in
  let st1 := setLoading true st in
  let '(b', response) := call_getContacts b in
  let st2 := if success response
             then setContacts (response_list response) st1 else st1 in
  (setLoading false st2, b').

(** [handleSubmit()] from the click to the end of its [finally], with
    no other event between the call and its completion.  On a rejected
    draft this is all of [handleSubmit]; on an accepted one it is
    [handleSubmit_click] followed at once by [handleSubmit_done], which
    are given below and take the state as it is when each runs. *)
Definition handleSubmit (now : Z) (iso : jsstring)
    (sb : AppState * Backend) : AppState * Backend :=
  let '(st, b) := sb in
  let '(st1, ok) := validateForm st in
  if negb ok then (st1, b)
  else
    let st2 := setSubmitting true st1 in
    let '(b', response) :=
      call_createContact now iso (formData_obj (formData st)) b in
    let st3 :=
      match success response, data response with
      | true, OneContact c =>
          setShowSuccess true
            (setErrors ∅
               (setFormData formData_init
                  (setContacts (c :: contacts st2) st2)))
      | _, _ => st2
      end in
    (setSubmitting false st3, b').

(** [handleDelete(id)]: nothing is read or written before the call
    returns, so the whole handler acts on the state of that moment. *)
Definition handleDelete (id : jsstring) (sb : AppState * Backend)
    : AppState * Backend :=
  let '(st, b) := sb in
  let '(b', _) := call_deleteContact id b in
  (setContacts (filter (λ c : obj, c !! "_id" ≠ Some id) (contacts st)) st, b').

(** Number of [createContact] calls the backend has received. *)
Definition is_create (c : api_call) : bool :=
  match c with CallCreate _ => true | _ => false end.

Definition create_calls (b : Backend) : nat :=
  length (List.filter is_create (api_calls b)).

(** What a user can do to the mounted component. *)
Inductive ui_event : Type :=
| Type_in (f : input_name) (value : jsstring)   (* onChange *)
| Leave (f : input_name)                         (* onBlur *)
| ClickSubmit (now : Z) (iso : jsstring)
| ClickDelete (id : jsstring)
| SuccessTimeout.                                (* the 3000 ms timer *)

(** An event is on offer: the message box has no [onBlur], the button
    must be enabled, and a delete button belongs to a listed contact. *)
Definition offered (e : ui_event) (st : AppState) : Prop :=
  match e with
  | Type_in _ _ => True
  | Leave f => f ≠ InMessage
  | ClickSubmit _ _ => submit_disabled st = false
  | ClickDelete id => ∃ c : obj, c ∈ contacts st ∧ c !! "_id" = Some id
  | SuccessTimeout => True
  end.

Definition handle (e : ui_event) (sb : AppState * Backend)
    : AppState * Backend :=
  match e with
  | Type_in f v => (handleChange f v sb.1, sb.2)
  | Leave f => (handleBlur (key f) sb.1, sb.2)
  | ClickSubmit now iso => handleSubmit now iso sb
  | ClickDelete id => handleDelete id sb
  | SuccessTimeout => (setShowSuccess false sb.1, sb.2)
  end.

(** States of the component after mounting and any number of events,
    when the user lets every call complete before the next event; the
    states with calls in flight are those of [app_reachable] below. *)
Inductive ui_reachable : AppState * Backend -> Prop :=
| reach_mount : ui_reachable (fetchContacts (state_init, backend_init))
| reach_event e sb :
    ui_reachable sb -> offered e sb.1 -> ui_reachable (handle e sb).

(* ================================================================= *)
(** ** The delays of the mock backend, as timers

    Each [API] function starts with [await new Promise(resolve =>
    setTimeout(resolve, delay))]: a call only sets a timer, and its body
    runs, in one piece, when the timer fires.  Timers run on a clock
    that only moves forward; [Date.now()] reads the system clock, which
    is that clock plus a skew that changes when the system clock is
    set. *)

Inductive task : Type :=
| TaskCreate (contactData : obj)
| TaskGet
| TaskDelete (id : jsstring).

Definition delay (t : task) : Z :=
  match t with
  | TaskCreate _ => 500
  | TaskGet => 300
  | TaskDelete _ => 300
  end.

Record World := {
  clock : Z;                   (* milliseconds on the timers' clock *)
  skew : Z;                    (* system clock minus timers' clock *)
  store : list obj;            (* [API.contacts] *)
  timers : list (Z * task)     (* due time and continuation, oldest first *)
}.

(** [Date.now()] *)
Definition Date_now (w : World) : Z := (clock w + skew w)%Z.

(** The page is loaded when the system clock reads [t0]. *)
Definition world_init (t0 : Z) : World :=
  {| clock := 0; skew := t0; store := API.contacts_init; timers := [] |}.

Inductive action : Type :=
| Call (t : task)           (* an [API] function is called *)
| Tick (dt : Z)             (* [dt] milliseconds pass *)
| Adjust (dz : Z)           (* the system clock is moved by [dz] *)
| Fire (iso : jsstring).    (* the next due timer fires; [iso] is what
                               [toISOString] returns if it is asked *)

(** The timer to fire next: the least due time, the oldest among equals. *)
Fixpoint pop_next (ts : list (Z * task))
    : option ((Z * task) * list (Z * task)) :=
  match ts with
  | [] => None
  | x :: ts' =>
      match pop_next ts' with
      | None => Some (x, [])
      | Some (y, rest) =>
          if (x.1 <=? y.1)%Z then Some (x, ts') else Some (y, x :: rest)
      end
  end.

(** The body of an [API] function after its [await]. *)
Definition resume (t : task) (iso : jsstring) (w : World)
    (rest : list (Z * task)) : World :=
  match t with
  | TaskCreate d =>
      {| clock := clock w; skew := skew w;
         store := (API.createContact (Date_now w) iso d (store w)).1;
         timers := rest |}
  | TaskGet =>
      {| clock := clock w; skew := skew w;
         store := (API.getContacts (store w)).1;
         timers := rest |}
  | TaskDelete id =>
      {| clock := clock w; skew := skew w;
         store := (API.deleteContact id (store w)).1;
         timers := rest |}
  end.

Definition do_action (a : action) (w : World) : option World :=
  match a with
  | Call t =>
      Some {| clock := clock w; skew := skew w; store := store w;
              timers := timers w ++ [((clock w + delay t)%Z, t)] |}
  | Tick dt =>
      if (0 <=? dt)%Z
      then Some {| clock := (clock w + dt)%Z; skew := skew w;
                   store := store w; timers := timers w |}
      else None
  | Adjust dz =>
      Some {| clock := clock w; skew := (skew w + dz)%Z;
              store := store w; timers := timers w |}
  | Fire iso =>
      match pop_next (timers w) with
      | Some ((due, t), rest) =>
          if (due <=? clock w)%Z then Some (resume t iso w rest) else None
      | None => None
      end
  end.

Fixpoint run (acts : list action) (w : World) : option World :=
  match acts with
  | [] => Some w
  | a :: acts' =>
      match do_action a w with
      | Some w' => run acts' w'
      | None => None
      end
  end.

Definition is_create_task (t : task) : bool :=
  match t with TaskCreate _ => true | _ => false end.

(** A [createContact] call has been made and its timer has not fired. *)
Definition create_pending (w : World) : bool :=
  existsb (λ x : Z * task, is_create_task x.2) (timers w).

(** An action is orderly: [createContact] is not called while an
    earlier [createContact] is pending (as when every call is awaited),
    and the system clock is not set back. *)
Definition orderly (a : action) (w : World) : bool :=
  match a with
  | Call t => negb (is_create_task t && create_pending w)
  | Adjust dz => (0 <=? dz)%Z
  | _ => true
  end.

Fixpoint run_orderly (acts : list action) (w : World) : option World :=
  match acts with
  | [] => Some w
  | a :: acts' =>
      if orderly a w
      then match do_action a w with
           | Some w' => run_orderly acts' w'
           | None => None
           end
      else None
  end.

(** The data handed to [createContact] has no [_id] of its own. *)
Definition plain_draft (a : action) : Prop :=
  match a with
  | Call (TaskCreate d) => d !! "_id" = None
  | _ => True
  end.

(* ================================================================= *)
(** ** Vocabulary of the statements *)

(** The four conjuncts of [isFormValid]. *)
Definition name_nonblank (st : AppState) : Prop :=
  trim (name (formData st)) ≠ [].

Definition email_passes (st : AppState) : Prop :=
  validateEmail (email (formData st)) = true.

Definition phone_passes (st : AppState) : Prop :=
  validatePhone (phone (formData st)) = true.

Definition no_error_keys (st : AppState) : Prop :=
  ∀ k : string, errors st !! k = None.

(** Only spaces, hyphens, plus signs and parentheses. *)
Definition is_separator (c : code_unit) : bool :=
  ((c =? space) || (c =? hyphen) || (c =? plus_sign) ||
   (c =? left_paren) || (c =? right_paren))%N.

Definition digit_count (s : jsstring) : nat :=
  length (List.filter is_digit s).

(** A run of events, each on offer when it happens. *)
Fixpoint handle_all (es : list ui_event) (sb : AppState * Backend)
    : AppState * Backend :=
  match es with
  | [] => sb
  | e :: es' => handle_all es' (handle e sb)
  end.

Fixpoint offered_all (es : list ui_event) (sb : AppState * Backend) : Prop :=
  match es with
  | [] => True
  | e :: es' => offered e sb.1 ∧ offered_all es' (handle e sb)
  end.

Definition is_leave (e : ui_event) : bool :=
  match e with Leave _ => true | _ => false end.

(** The state showing the draft [fd] and the error map [e]. *)
Definition form_state (fd : FormData) (e : gmap string jsstring) : AppState :=
  setErrors e (setFormData fd state_init).

Definition draft (n e p m : string) : FormData :=
  {| name := str n; email := str e; phone := str p; message := str m |}.

(** The round trip of a create followed by a list: the created contact
    comes first and is the only entry equal to it. *)
Definition create_then_list_holds (now : Z) (iso : jsstring) (d : obj)
    (contacts : list obj) : Prop :=
  let r := API.createContact now iso d contacts in
  let l := response_list (API.getContacts r.1).2 in
  ∃ c : obj, data r.2 = OneContact c ∧ head l = Some c ∧ occurrences c l = 1.

(** The identifiers are pairwise distinct in every state the timers can
    produce. *)
Definition ids_always_distinct : Prop :=
  ∀ (t0 : Z) (acts : list action) (w : World),
    run acts (world_init t0) = Some w → NoDup (ids (store w)).

(** Sample data. *)
Definition iso_sample : jsstring := str "2023-11-14T22:13:20.000Z".
Definition jo : obj := formData_obj (draft "Jo" "jo@x.com" "1234567890" "").
Definition al : obj := formData_obj (draft "Al" "al@x.com" "0987654321" "").

(** The [createContact] calls whose timers have not fired. *)
Definition pending_creates (ts : list (Z * task)) : list (Z * task) :=
  filter (λ x : Z * task, is_create_task x.2 = true) ts.

(** What holds of the timers' world along an orderly run: the
    identifiers are distinct, each is the decimal form of a reading of
    the system clock that is not in the future and lies before the
    reading the pending create will make, and pending drafts have no
    [_id]. *)
Definition orderly_inv (w : World) : Prop :=
  NoDup (ids (store w)) ∧
  length (pending_creates (timers w)) ≤ 1 ∧
  (∀ due d, (due, TaskCreate d) ∈ timers w → d !! "_id" = None) ∧
  ∀ c : obj, c ∈ store w →
    ∃ t : Z, c !! "_id" = Some (Number_toString t) ∧ (t ≤ Date_now w)%Z ∧
             ∀ due d, (due, TaskCreate d) ∈ timers w → (t < due + skew w)%Z.

(** Two creates and a delete, each awaited, the system clock being set
    forward in between. *)
Definition orderly_sample : list action :=
  [Call (TaskCreate jo); Tick 500; Fire iso_sample;
   Call (TaskCreate al); Tick 250; Adjust 2; Tick 250; Fire iso_sample;
   Call (TaskDelete (str "0")); Call TaskGet; Tick 300;
   Fire []; Fire []].

Definition orderly_result : World :=
  default (world_init 0)
          (run_orderly orderly_sample (world_init 1699999999500)).

(** Two [createContact] calls made one after the other without waiting:
    both timers are due at the same millisecond. *)
Definition overlapping_sample : list action :=
  [Call (TaskCreate jo); Call (TaskCreate al); Tick 500;
   Fire iso_sample; Fire iso_sample].

Definition overlapping_result : World :=
  default (world_init 0)
          (run overlapping_sample (world_init 1699999999500)).

(** Two awaited creates, the system clock being set back by 600 ms
    between them. *)
Definition set_back_sample : list action :=
  [Call (TaskCreate jo); Tick 500; Fire iso_sample;
   Adjust (-600);
   Call (TaskCreate al); Tick 600; Fire iso_sample].

(** The state reached by leaving the empty name box, then typing a
    name, an email and a phone number that all pass. *)
Definition stale_state : AppState * Backend :=
  handle_all [Leave InName;
              Type_in InName (str "Jo");
              Type_in InEmail (str "jo@x.com");
              Type_in InPhone (str "1234567890")]
             (fetchContacts (state_init, backend_init)).

(* ================================================================= *)
(** ** What is rendered (App.js, lines 242-244, 266-268, 290-292, 334-387) *)

(** [{errors.f && <p>{errors.f}</p>}]: the message shown under the input
    [f], if any.  The same test colours the border red.  The message box
    renders none. *)
Definition error_text (f : input_name) (st : AppState) : option jsstring :=
  match f with
  | InMessage => None
  | _ => match errors st !! key f with
         | Some m => if str_truthy m then Some m else None
         | None => None
         end
  end.

(** The three branches of the list panel: the spinner, the "No contacts
    yet" notice, or one card per contact. *)
Inductive list_view : Type :=
| ViewLoading
| ViewEmpty
| ViewCards (l : list obj).

Definition render_list (st : AppState) : list_view :=
  if loading st then ViewLoading
  else if (length (contacts st) =? 0) then ViewEmpty
  else ViewCards (contacts st).

(** The rule of each input, as [validateForm] and [handleBlur] apply it;
    the message box has none. *)
Definition check_field (f : input_name) (fd : FormData) : option jsstring :=
  match f with
  | InName => check_name fd
  | InEmail => check_email fd
  | InPhone => check_phone fd
  | InMessage => None
  end.

(** The texts [validateForm] and [handleBlur] can record. *)
Definition messages : list jsstring :=
  [msg_name_required; msg_name_short; msg_email_required;
   msg_email_invalid; msg_phone_required; msg_phone_invalid].

(** The names of the properties of a stored contact. *)
Definition contact_keys : list string :=
  ["_id"; "name"; "email"; "phone"; "message"; "createdAt"].

(** What the form guarantees of a contact it has stored: the six
    properties and no other, a name of at least two characters once
    trimmed, an email and a phone that pass their checks, and an
    identifier printed from a clock reading. *)
Definition validated_contact (c : obj) : Prop :=
  ∃ (n e p m t : jsstring) (now : Z),
    c !! "name" = Some n ∧ c !! "email" = Some e ∧ c !! "phone" = Some p ∧
    c !! "message" = Some m ∧ c !! "createdAt" = Some t ∧
    c !! "_id" = Some (Number_toString now) ∧
    (∀ k, is_Some (c !! k) ↔ k ∈ contact_keys) ∧
    2 ≤ length (trim n) ∧ validateEmail e = true ∧
    validatePhone p = true ∧ trim p ≠ [].

(** A session: a valid contact is typed and submitted, then a second
    one; the user types into the form again, leaves the box and deletes
    the first contact. *)
Definition session_sample : list ui_event :=
  [Type_in InName (str "Jo"); Type_in InEmail (str "jo@x.com");
   Type_in InPhone (str "1234567890");
   ClickSubmit 1700000000000 iso_sample;
   Type_in InName (str " Al "); Type_in InEmail (str "al@x.com");
   Type_in InPhone (str "(098) 765-4321"); Type_in InMessage (str "hi");
   ClickSubmit 1700000060000 iso_sample;
   Type_in InName (str "A"); Leave InName;
   ClickDelete (str "1700000000000")].

Definition session_result : AppState * Backend :=
  handle_all session_sample (fetchContacts (state_init, backend_init)).

(* ================================================================= *)
(** ** The component with its calls in flight
       (App.js, lines 54-71, 156-193)

    An awaited [API] call splits its handler in two: what runs at the
    event, up to the call, and what runs when the call returns.  In
    between the component renders and takes further events.  The body
    of the [API] function and the rest of the handler run in one piece
    when the timer of the call fires. *)

Inductive ui_task : Type :=
| UiFetch                       (* [fetchContacts] awaiting [getContacts] *)
| UiSubmit (contactData : obj)  (* [handleSubmit] awaiting [createContact] *)
| UiDelete (id : jsstring)      (* [handleDelete] awaiting [deleteContact] *)
| UiHideSuccess.                (* [setTimeout(..., 3000)] of line 176 *)

Record AppWorld := {
  app_ui : AppState;
  app_backend : Backend;
  app_clock : Z;                     (* the timers' clock *)
  app_skew : Z;                      (* system clock minus timers' clock *)
  app_timers : list (Z * ui_task)    (* due time and what runs then *)
}.

(** [Date.now()] *)
Definition app_now (w : AppWorld) : Z := (app_clock w + app_skew w)%Z.

(** The component once its mount effect has run (the first paint, before
    the effect, shows [state_init]): [fetchContacts] has set [loading]
    and called [getContacts]. *)
Definition app_init (t0 : Z) : AppWorld :=
  {| app_ui := setLoading true state_init;
     app_backend := {| api_contacts := API.contacts_init;
                       api_calls := [CallGet] |};
     app_clock := 0; app_skew := t0;
     app_timers := [(300%Z, UiFetch)] |}.

(** The timer to fire next: the least due time, the oldest among equals. *)
Fixpoint pop_due {T : Type} (ts : list (Z * T))
    : option ((Z * T) * list (Z * T)) :=
  match ts with
  | [] => None
  | x :: ts' =>
      match pop_due ts' with
      | None => Some (x, [])
      | Some (y, rest) =>
          if (x.1 <=? y.1)%Z then Some (x, ts') else Some (y, x :: rest)
      end
  end.

(** [fetchContacts] from the return of [getContacts] on (lines 62-70). *)
Definition fetchContacts_done (w : AppWorld) (rest : list (Z * ui_task))
    : AppWorld :=
  let '(cs, response) := API.getContacts (api_contacts (app_backend w)) in
  let st1 := if success response
             then setContacts (response_list response) (app_ui w)
             else app_ui w in
  {| app_ui := setLoading false st1;
     app_backend := {| api_contacts := cs;
                       api_calls := api_calls (app_backend w) |};
     app_clock := app_clock w; app_skew := app_skew w;
     app_timers := rest |}.

(** [handleSubmit] up to its [await] (lines 157-164): the draft is read
    here and handed to [createContact]. *)
Definition handleSubmit_click (w : AppWorld) : AppWorld :=
  let '(st1, ok) := validateForm (app_ui w) in
  if negb ok
  then {| app_ui := st1; app_backend := app_backend w;
          app_clock := app_clock w; app_skew := app_skew w;
          app_timers := app_timers w |}
  else
    let d := formData_obj (formData (app_ui w)) in
    {| app_ui := setSubmitting true st1;
       app_backend :=
         {| api_contacts := api_contacts (app_backend w);
            api_calls := api_calls (app_backend w) ++ [CallCreate d] |};
       app_clock := app_clock w; app_skew := app_skew w;
       app_timers := app_timers w ++ [((app_clock w + 500)%Z, UiSubmit d)] |}.

(** The body of [createContact] and [handleSubmit] from its return on
    (lines 13-20 and 166-183), on the state of that moment. *)
Definition handleSubmit_done (d : obj) (iso : jsstring) (w : AppWorld)
    (rest : list (Z * ui_task)) : AppWorld :=
  let '(cs, response) :=
    API.createContact (app_now w) iso d (api_contacts (app_backend w)) in
  let st1 :=
    match success response, data response with
    | true, OneContact c =>
        setShowSuccess true
          (setErrors ∅
             (setFormData formData_init
                (setContacts (c :: contacts (app_ui w)) (app_ui w))))
    | _, _ => app_ui w
    end in
  {| app_ui := setSubmitting false st1;
     app_backend := {| api_contacts := cs;
                       api_calls := api_calls (app_backend w) |};
     app_clock := app_clock w; app_skew := app_skew w;
     app_timers :=
       match success response with
       | true => rest ++ [((app_clock w + 3000)%Z, UiHideSuccess)]
       | false => rest
       end |}.

(** [handleDelete] up to its [await] (line 188). *)
Definition handleDelete_click (id : jsstring) (w : AppWorld) : AppWorld :=
  {| app_ui := app_ui w;
     app_backend :=
       {| api_contacts := api_contacts (app_backend w);
          api_calls := api_calls (app_backend w) ++ [CallDelete id] |};
     app_clock := app_clock w; app_skew := app_skew w;
     app_timers := app_timers w ++ [((app_clock w + 300)%Z, UiDelete id)] |}.

(** The body of [deleteContact] and [handleDelete] from its return on
    (lines 31-32 and 189). *)
Definition handleDelete_done (id : jsstring) (w : AppWorld)
    (rest : list (Z * ui_task)) : AppWorld :=
  let '(cs, _) := API.deleteContact id (api_contacts (app_backend w)) in
  {| app_ui :=
       setContacts
         (filter (λ c : obj, c !! "_id" ≠ Some id) (contacts (app_ui w)))
         (app_ui w);
     app_backend := {| api_contacts := cs;
                       api_calls := api_calls (app_backend w) |};
     app_clock := app_clock w; app_skew := app_skew w;
     app_timers := rest |}.

(** What runs when a timer fires. *)
Definition app_resume (t : ui_task) (iso : jsstring) (w : AppWorld)
    (rest : list (Z * ui_task)) : AppWorld :=
  match t with
  | UiFetch => fetchContacts_done w rest
  | UiSubmit d => handleSubmit_done d iso w rest
  | UiDelete id => handleDelete_done id w rest
  | UiHideSuccess =>
      {| app_ui := setShowSuccess false (app_ui w);
         app_backend := app_backend w;
         app_clock := app_clock w; app_skew := app_skew w;
         app_timers := rest |}
  end.

Definition with_ui (st : AppState) (w : AppWorld) : AppWorld :=
  {| app_ui := st; app_backend := app_backend w;
     app_clock := app_clock w; app_skew := app_skew w;
     app_timers := app_timers w |}.

Inductive user_event : Type :=
| UType (f : input_name) (value : jsstring)    (* onChange *)
| ULeave (f : input_name)                      (* onBlur *)
| USubmit                                      (* click on the button *)
| UDelete (id : jsstring).                     (* click on a card's bin *)

Inductive app_event : Type :=
| User (u : user_event)
| Pass (dt : Z)               (* [dt] milliseconds pass *)
| ClockSet (dz : Z)           (* the system clock is moved by [dz] *)
| TimerFires (iso : jsstring).  (* the next due timer fires; [iso] is
                                   what [toISOString] returns if asked *)

(** One event, when it can happen: the message box has no [onBlur], a
    disabled button does not click, a bin belongs to a displayed card,
    time does not run backwards and a timer fires only when due. *)
Definition app_step (e : app_event) (w : AppWorld) : option AppWorld :=
  match e with
  | User (UType f v) => Some (with_ui (handleChange f v (app_ui w)) w)
  | User (ULeave f) =>
      match f with
      | InMessage => None
      | _ => Some (with_ui (handleBlur (key f) (app_ui w)) w)
      end
  | User USubmit =>
      if submit_disabled (app_ui w) then None
      else Some (handleSubmit_click w)
  | User (UDelete id) =>
      if decide (Some id ∈ ids (contacts (app_ui w)))
      then Some (handleDelete_click id w) else None
  | Pass dt =>
      if (0 <=? dt)%Z
      then Some {| app_ui := app_ui w; app_backend := app_backend w;
                   app_clock := (app_clock w + dt)%Z;
                   app_skew := app_skew w; app_timers := app_timers w |}
      else None
  | ClockSet dz =>
      Some {| app_ui := app_ui w; app_backend := app_backend w;
              app_clock := app_clock w; app_skew := (app_skew w + dz)%Z;
              app_timers := app_timers w |}
  | TimerFires iso =>
      match pop_due (app_timers w) with
      | Some ((due, t), rest) =>
          if (due <=? app_clock w)%Z
          then Some (app_resume t iso w rest) else None
      | None => None
      end
  end.

Fixpoint app_run (evs : list app_event) (w : AppWorld) : option AppWorld :=
  match evs with
  | [] => Some w
  | e :: evs' =>
      match app_step e w with
      | Some w' => app_run evs' w'
      | None => None
      end
  end.

(** The states of the mounted component, calls in flight included. *)
Definition app_reachable (w : AppWorld) : Prop :=
  ∃ (t0 : Z) (evs : list app_event), app_run evs (app_init t0) = Some w.

Definition is_fetch (x : Z * ui_task) : bool :=
  match x.2 with UiFetch => true | _ => false end.

(** The mount fetch has not returned yet. *)
Definition fetch_pending (w : AppWorld) : bool :=
  existsb is_fetch (app_timers w).

(** A draft that [validateForm] accepts. *)
Definition accepted_draft (d : obj) : Prop :=
  ∃ fd : FormData,
    d = formData_obj fd ∧ 2 ≤ length (trim (name fd)) ∧
    validateEmail (email fd) = true ∧
    validatePhone (phone fd) = true ∧ trim (phone fd) ≠ [].

(** The last clause of C5 read against the button's test: the map that
    [validateForm] builds is empty exactly when [isFormValid] is
    truthy. *)
Definition empty_iff_submittable (st : AppState) : Prop :=
  errors (validateForm st).1 = ∅ ↔ truthy (isFormValid st) = true.

(** The contact [c] was appended by a [createContact] body of the run
    [acts]: at some point of the run the timer of a [createContact]
    call on [d] fired, and [c] is the contact built there, its [_id]
    the decimal form of what [Date.now()] read at that moment. *)
Definition created_in_run (w0 : World) (acts : list action) (c : obj)
    : Prop :=
  ∃ (acts1 : list action) (iso : jsstring) (acts2 : list action)
    (w1 : World) (due : Z) (d : obj) (rest : list (Z * task)),
    acts = acts1 ++ Fire iso :: acts2 ∧
    run acts1 w0 = Some w1 ∧
    pop_next (timers w1) = Some ((due, TaskCreate d), rest) ∧
    (due ≤ clock w1)%Z ∧
    c = API.newContact (Date_now w1) iso d ∧
    c !! "_id" = Some (Number_toString (Date_now w1)).

(** A session with calls in flight: the user types while the mount
    fetch is pending, submits, types again before the create returns,
    submits a second contact and deletes the first one while the second
    create is still pending. *)
Definition flight_sample : list app_event :=
  [User (UType InName (str "Jo")); User (UType InEmail (str "jo@x.com"));
   Pass 300; TimerFires [];
   User (UType InPhone (str "1234567890")); User USubmit;
   User (UType InName (str "A")); User (ULeave InName);
   Pass 500; TimerFires iso_sample;
   User (UType InName (str " Al ")); User (UType InEmail (str "al@x.com"));
   User (UType InPhone (str "(098) 765-4321")); User USubmit;
   User (UDelete (str "1700000000000"));
   User (UType InMessage (str "typed while two calls are pending"));
   Pass 300; TimerFires [];
   Pass 200; TimerFires iso_sample].

Definition flight_result : AppWorld :=
  default (app_init 0) (app_run flight_sample (app_init 1699999999200)).

(** The same session stopped while the first create is pending, the
    user having typed into the name box and left it. *)
Definition flight_early : AppWorld :=
  default (app_init 0)
          (app_run (take 8 flight_sample) (app_init 1699999999200)).

(** The same session stopped while the second create and the delete are
    pending. *)
Definition flight_midway : AppWorld :=
  default (app_init 0)
          (app_run (take 16 flight_sample) (app_init 1699999999200)).

(* ================================================================= *)
(** * Properties *)

(* ================================================================= *)
(** ** The definitions on sample inputs *)

Example validateEmail_jo : validateEmail (str "jo@x.com") = true.
Proof. reflexivity. Qed.

Example validateEmail_no_at : validateEmail (str "jo.x.com") = false.
Proof. reflexivity. Qed.

Example validatePhone_ten_digits : validatePhone (str "1234567890") = true.
Proof. reflexivity. Qed.

Example validatePhone_nine_digits : validatePhone (str "123456789") = false.
Proof. reflexivity. Qed.

Example trim_example : trim (str "  J o  ") = str "J o".
Proof. reflexivity. Qed.

Example Number_toString_example :
  Number_toString 1700000000000 = str "1700000000000".
Proof. reflexivity. Qed.

(* ================================================================= *)
(** ** The matcher decides the language of the pattern *)

Lemma Matches_Class p s : Matches (Class p) s ↔ ∃ c, s = [c] ∧ p c = true.
Proof.
  split.
  - inversion 1; subst. eauto.
  - intros (c & -> & Hc). by constructor.
Qed.

Lemma Matches_Cat r1 r2 s :
  Matches (Cat r1 r2) s ↔
  ∃ s1 s2, s = s1 ++ s2 ∧ Matches r1 s1 ∧ Matches r2 s2.
Proof.
  split.
  - inversion 1; subst. eauto.
  - intros (s1 & s2 & -> & H1 & H2). by constructor.
Qed.

Lemma Matches_Alt r1 r2 s :
  Matches (Alt r1 r2) s ↔ Matches r1 s ∨ Matches r2 s.
Proof.
  split.
  - inversion 1; subst; auto.
  - intros [H|H]; [by apply MAltL | by apply MAltR].
Qed.

Lemma Matches_Void s : ¬ Matches Void s.
Proof. inversion 1. Qed.

Lemma Matches_Eps s : Matches Eps s ↔ s = [].
Proof.
  split.
  - by inversion 1.
  - intros ->. constructor.
Qed.

Lemma nullable_spec r : nullable r = true ↔ Matches r [].
Proof.
  induction r as [| |p|r1 IH1 r2 IH2|r1 IH1 r2 IH2|r IH]; simpl.
  - split; [discriminate | intros H; by apply Matches_Void in H].
  - by rewrite Matches_Eps.
  - rewrite Matches_Class. split; [discriminate | by intros (c & ? & _)].
  - rewrite andb_true_iff, IH1, IH2, Matches_Cat. split.
    + intros [H1 H2]. by exists [], [].
    + intros (s1 & s2 & Heq & H1 & H2). symmetry in Heq.
      apply app_eq_nil in Heq as [-> ->]. by split.
  - by rewrite orb_true_iff, IH1, IH2, Matches_Alt.
  - split; [constructor | reflexivity].
Qed.

Lemma Matches_star_cons_inv r c s :
  Matches (Star r) (c :: s) →
  ∃ s1 s2, s = s1 ++ s2 ∧ Matches r (c :: s1) ∧ Matches (Star r) s2.
Proof.
  intros H. remember (Star r) as r' eqn:Hr. remember (c :: s) as w eqn:Hw.
  revert s Hw.
  induction H as [| | | | | |r0 s1 s2 H1 _ H2 IH2]; intros t Hw;
    try discriminate.
  inversion Hr; subst r0.
  destruct s1 as [|c1 s1]; simpl in Hw.
  - by apply IH2.
  - inversion Hw; subst. eauto.
Qed.

(** The derivative of a concatenation, whichever branch [deriv] takes. *)
Lemma Matches_cons_Cat c r1 r2 s :
  Matches (Cat r1 r2) (c :: s) ↔
  (∃ s1 s2, s = s1 ++ s2 ∧ Matches r1 (c :: s1) ∧ Matches r2 s2) ∨
  (Matches r1 [] ∧ Matches r2 (c :: s)).
Proof.
  rewrite Matches_Cat. split.
  - intros (s1 & s2 & Heq & H1 & H2).
    destruct s1 as [|c1 s1]; simpl in Heq.
    + subst s2. by right.
    + inversion Heq; subst. left. eauto.
  - intros [(s1 & s2 & -> & H1 & H2)|[H1 H2]].
    + by exists (c :: s1), s2.
    + by exists [], (c :: s).
Qed.

Lemma deriv_spec c r s : Matches (deriv c r) s ↔ Matches r (c :: s).
Proof.
  revert s.
  induction r as [| |p|r1 IH1 r2 IH2|r1 IH1 r2 IH2|r IH]; intros s; simpl.
  - split; intros H; by apply Matches_Void in H.
  - split; intros H; [by apply Matches_Void in H | by apply Matches_Eps in H].
  - rewrite Matches_Class. destruct (p c) eqn:Hp.
    + rewrite Matches_Eps. split.
      * intros ->. eauto.
      * by intros (c' & [= _ ->] & _).
    + split; [intros H; by apply Matches_Void in H |].
      intros (c' & [= <- _] & ?). congruence.
  - rewrite Matches_cons_Cat. destruct (nullable r1) eqn:Hn.
    + rewrite Matches_Alt, Matches_Cat, IH2.
      apply nullable_spec in Hn.
      setoid_rewrite IH1. split.
      * intros [H|H]; [by left | by right].
      * intros [H|[_ H]]; [by left | by right].
    + rewrite Matches_Cat. setoid_rewrite IH1.
      split; [by left |].
      intros [H|[H _]]; [done |].
      apply nullable_spec in H. congruence.
  - by rewrite !Matches_Alt, IH1, IH2.
  - rewrite Matches_Cat. setoid_rewrite IH. split.
    + intros (s1 & s2 & -> & H1 & H2).
      change (c :: s1 ++ s2) with ((c :: s1) ++ s2). by constructor.
    + apply Matches_star_cons_inv.
Qed.

Lemma RegExp_test_spec r s : RegExp_test r s = true ↔ Matches r s.
Proof.
  revert r. induction s as [|c s IH]; intros r; simpl.
  - apply nullable_spec.
  - rewrite IH. apply deriv_spec.
Qed.

Lemma Matches_star_class p s :
  Matches (Star (Class p)) s ↔ forallb p s = true.
Proof.
  split.
  - intros H. remember (Star (Class p)) as r eqn:Hr.
    induction H as [| | | | | |r0 s1 s2 H1 _ H2 IH2]; try discriminate.
    + reflexivity.
    + inversion Hr; subst r0. apply Matches_Class in H1 as (c & -> & Hc).
      simpl. rewrite Hc. by apply IH2.
  - induction s as [|c s IH]; simpl.
    + constructor.
    + rewrite andb_true_iff. intros [Hc Hs].
      change (c :: s) with ([c] ++ s).
      constructor; [by constructor | by apply IH].
Qed.

Lemma Matches_plus_class p s :
  Matches (Plus (Class p)) s ↔ s ≠ [] ∧ forallb p s = true.
Proof.
  unfold Plus. rewrite Matches_Cat. split.
  - intros (s1 & s2 & -> & H1 & H2).
    apply Matches_Class in H1 as (c & -> & Hc).
    apply Matches_star_class in H2. simpl. rewrite Hc. done.
  - intros [Hne Hall]. destruct s as [|c s]; [done |].
    simpl in Hall. apply andb_true_iff in Hall as [Hc Hs].
    exists [c], s. split; [done |]. split.
    + by constructor.
    + by apply Matches_star_class.
Qed.

Lemma Matches_atleast_class n p s :
  Matches (AtLeast n (Class p)) s ↔ n ≤ length s ∧ forallb p s = true.
Proof.
  revert s. induction n as [|n IH]; intros s; simpl.
  - rewrite Matches_star_class. split; [split; [lia | done] | by intros [_ ?]].
  - rewrite Matches_Cat. split.
    + intros (s1 & s2 & -> & H1 & H2).
      apply Matches_Class in H1 as (c & -> & Hc).
      apply IH in H2 as [Hlen Hall]. simpl. rewrite Hc. split; [lia | done].
    + intros [Hlen Hall]. destruct s as [|c s]; [simpl in Hlen; lia |].
      simpl in Hall, Hlen. apply andb_true_iff in Hall as [Hc Hs].
      exists [c], s. split; [done |]. split.
      * by constructor.
      * apply IH. split; [lia | done].
Qed.

(** [validatePhone]: only characters of the class, and at least ten. *)
Lemma validatePhone_spec s :
  validatePhone s = true ↔ 10 ≤ length s ∧ forallb phone_char s = true.
Proof.
  unfold validatePhone, phoneRegex.
  rewrite RegExp_test_spec. apply Matches_atleast_class.
Qed.

(** [validateEmail]: [local@domain.tld] with three non-empty parts free
    of white space and of [@]. *)
Lemma validateEmail_spec s :
  validateEmail s = true ↔
  ∃ a b c, s = a ++ [at_sign] ++ b ++ [full_stop] ++ c ∧
           a ≠ [] ∧ b ≠ [] ∧ c ≠ [] ∧
           forallb email_atom a = true ∧ forallb email_atom b = true ∧
           forallb email_atom c = true.
Proof.
  unfold validateEmail, emailRegex, Chr.
  rewrite RegExp_test_spec. split.
  - intros H.
    apply Matches_Cat in H as (a & s1 & -> & Ha & H).
    apply Matches_Cat in H as (x & s2 & -> & Hx & H).
    apply Matches_Cat in H as (b & s3 & -> & Hb & H).
    apply Matches_Cat in H as (y & c & -> & Hy & Hc).
    apply Matches_Class in Hx as (cx & -> & Hcx).
    apply Matches_Class in Hy as (cy & -> & Hcy).
    apply N.eqb_eq in Hcx as <-. apply N.eqb_eq in Hcy as <-.
    apply Matches_plus_class in Ha as [? ?].
    apply Matches_plus_class in Hb as [? ?].
    apply Matches_plus_class in Hc as [? ?].
    exists a, b, c. done.
  - intros (a & b & c & -> & Ha & Hb & Hc & Fa & Fb & Fc).
    constructor; [by apply Matches_plus_class |].
    constructor; [constructor; apply N.eqb_refl |].
    constructor; [by apply Matches_plus_class |].
    constructor; [constructor; apply N.eqb_refl |].
    by apply Matches_plus_class.
Qed.

(* ================================================================= *)
(** ** [validatePhone] counts characters, not digits *)

Lemma separator_phone_char c : is_separator c = true → phone_char c = true.
Proof.
  unfold is_separator. rewrite !orb_true_iff, !N.eqb_eq.
  intros [[[[->| ->]| ->]| ->]| ->]; reflexivity.
Qed.

Lemma separator_not_digit c : is_separator c = true → is_digit c = false.
Proof.
  unfold is_separator. rewrite !orb_true_iff, !N.eqb_eq.
  intros [[[[->| ->]| ->]| ->]| ->]; reflexivity.
Qed.

Lemma separators_digit_count s :
  forallb is_separator s = true → digit_count s = 0.
Proof.
  unfold digit_count. induction s as [|c s IH]; simpl; [done |].
  rewrite andb_true_iff. intros [Hc Hs].
  rewrite (separator_not_digit c Hc). by apply IH.
Qed.

(** C10: every string of at least ten characters made only of spaces,
    hyphens, plus signs and parentheses passes [validatePhone] although
    it holds no digit; ten hyphens are such a string. *)
Theorem validatePhone_accepts_digitless (s : jsstring) :
  10 ≤ length s →
  forallb is_separator s = true →
  validatePhone s = true ∧ digit_count s = 0 ∧
  validatePhone (str "----------") = true ∧
  digit_count (str "----------") = 0.
Proof.
  intros Hlen Hsep. split; [| split; [| split]].
  - apply validatePhone_spec. split; [done |].
    apply forallb_forall. intros c Hc.
    apply separator_phone_char.
    by apply (proj1 (forallb_forall _ _) Hsep).
  - by apply separators_digit_count.
  - reflexivity.
  - reflexivity.
Qed.

Lemma validatePhone_accepts_digitless_witness :
  validatePhone (str "(+) - (+) -") = true ∧
  digit_count (str "(+) - (+) -") = 0 ∧
  validatePhone (str "----------") = true ∧
  digit_count (str "----------") = 0.
Proof.
  apply (validatePhone_accepts_digitless (str "(+) - (+) -")).
  - vm_compute. lia.
  - reflexivity.
Defined.

(* ================================================================= *)
(** ** The submit-enabling expression *)

Lemma Object_keys_empty (e : gmap string jsstring) :
  (length (Object_keys e) =? 0) = true ↔ ∀ k : string, e !! k = None.
Proof.
  unfold Object_keys. rewrite Nat.eqb_eq, length_fmap, length_zero_iff_nil.
  rewrite map_to_list_empty_iff. split.
  - intros -> k. apply lookup_empty.
  - intros H. apply map_eq. intros k. by rewrite H, lookup_empty.
Qed.

Lemma str_truthy_spec s : str_truthy s = true ↔ s ≠ [].
Proof. destruct s; simpl; split; congruence. Qed.

Lemma truthy_js_and a b : truthy (js_and a b) = truthy a && truthy b.
Proof. unfold js_and. by destruct (truthy a) eqn:Ha; simpl. Qed.

Lemma isFormValid_truthy st :
  truthy (isFormValid st) = true ↔
  name_nonblank st ∧ email_passes st ∧ phone_passes st ∧ no_error_keys st.
Proof.
  unfold isFormValid, name_nonblank, email_passes, phone_passes,
    no_error_keys.
  rewrite !truthy_js_and, !andb_true_iff. simpl.
  rewrite Object_keys_empty, str_truthy_spec. tauto.
Qed.

Lemma isFormValid_true st :
  isFormValid st = VBool true ↔ truthy (isFormValid st) = true.
Proof.
  split; [by intros -> |].
  unfold isFormValid, js_and. simpl.
  destruct (trim (name (formData st))) as [|c t]; simpl; [discriminate |].
  destruct (validateEmail (email (formData st))); simpl; [| discriminate].
  destruct (validatePhone (phone (formData st))); simpl; [| discriminate].
  by intros ->.
Qed.

(** C1: [isFormValid] is [true] (and truthy) exactly when the trimmed
    name is non-empty, the email passes [validateEmail], the phone passes
    [validatePhone] and the error map has no key.  In every state,
    leaving one of the four out gives the same verdict exactly when the
    other three imply it there; and for each of the four there is a state
    where the other three hold and it fails, so none can be left out. *)
Theorem isFormValid_four_conjuncts :
  (∀ st, isFormValid st = VBool true ↔
     name_nonblank st ∧ email_passes st ∧ phone_passes st ∧ no_error_keys st) ∧
  (∀ st, truthy (isFormValid st) = true ↔
     name_nonblank st ∧ email_passes st ∧ phone_passes st ∧ no_error_keys st) ∧
  (∀ st, (email_passes st ∧ phone_passes st ∧ no_error_keys st ↔
          truthy (isFormValid st) = true) ↔
         (email_passes st ∧ phone_passes st ∧ no_error_keys st →
          name_nonblank st)) ∧
  (∀ st, (name_nonblank st ∧ phone_passes st ∧ no_error_keys st ↔
          truthy (isFormValid st) = true) ↔
         (name_nonblank st ∧ phone_passes st ∧ no_error_keys st →
          email_passes st)) ∧
  (∀ st, (name_nonblank st ∧ email_passes st ∧ no_error_keys st ↔
          truthy (isFormValid st) = true) ↔
         (name_nonblank st ∧ email_passes st ∧ no_error_keys st →
          phone_passes st)) ∧
  (∀ st, (name_nonblank st ∧ email_passes st ∧ phone_passes st ↔
          truthy (isFormValid st) = true) ↔
         (name_nonblank st ∧ email_passes st ∧ phone_passes st →
          no_error_keys st)) ∧
  (∃ st, email_passes st ∧ phone_passes st ∧ no_error_keys st ∧
         ¬ name_nonblank st) ∧
  (∃ st, name_nonblank st ∧ phone_passes st ∧ no_error_keys st ∧
         ¬ email_passes st) ∧
  (∃ st, name_nonblank st ∧ email_passes st ∧ no_error_keys st ∧
         ¬ phone_passes st) ∧
  (∃ st, name_nonblank st ∧ email_passes st ∧ phone_passes st ∧
         ¬ no_error_keys st).
Proof.
  repeat apply conj.
  - intros st. rewrite isFormValid_true. apply isFormValid_truthy.
  - apply isFormValid_truthy.
  - intros st. rewrite isFormValid_truthy. tauto.
  - intros st. rewrite isFormValid_truthy. tauto.
  - intros st. rewrite isFormValid_truthy. tauto.
  - intros st. rewrite isFormValid_truthy. tauto.
  - exists (form_state (draft "   " "jo@x.com" "1234567890" "") ∅).
    repeat apply conj; try reflexivity.
    + intros k. apply lookup_empty.
    + intros H. by apply H.
  - exists (form_state (draft "Jo" "jo@x" "1234567890" "") ∅).
    repeat apply conj; try reflexivity; try discriminate.
    intros k. apply lookup_empty.
  - exists (form_state (draft "Jo" "jo@x.com" "12345" "") ∅).
    repeat apply conj; try reflexivity; try discriminate.
    intros k. apply lookup_empty.
  - exists (form_state (draft "Jo" "jo@x.com" "1234567890" "")
                       (<["name" := []]> ∅)).
    repeat apply conj; try reflexivity; try discriminate.
    intros H. specialize (H "name"). simpl in H.
    by rewrite lookup_insert_eq in H.
Qed.

(* ================================================================= *)
(** ** [handleChange] and the error map *)

Lemma handleChange_formData f v st :
  formData (handleChange f v st) = set_field f v (formData st).
Proof.
  unfold handleChange. by destruct (prop_truthy (errors st !! key f)).
Qed.

Lemma get_set_field f v fd : get_field f (set_field f v fd) = v.
Proof. by destruct f. Qed.

(** A recorded message is overwritten with the empty string. *)
Lemma handleChange_recorded f v st :
  prop_truthy (errors st !! key f) = true →
  errors (handleChange f v st) = <[key f := []]> (errors st).
Proof. unfold handleChange. by intros ->. Qed.

Lemma handleChange_not_recorded f v st :
  prop_truthy (errors st !! key f) = false →
  errors (handleChange f v st) = errors st.
Proof. unfold handleChange. by intros ->. Qed.

(** [handleChange] never adds or removes a key of the error map. *)
Lemma handleChange_keys f v st k :
  is_Some (errors (handleChange f v st) !! k) ↔ is_Some (errors st !! k).
Proof.
  destruct (prop_truthy (errors st !! key f)) eqn:Hrec.
  - rewrite (handleChange_recorded _ _ _ Hrec).
    destruct (decide (key f = k)) as [<-|Hne].
    + rewrite lookup_insert_eq.
      destruct (errors st !! key f); [| discriminate].
      split; eauto.
    + by rewrite lookup_insert_ne.
  - by rewrite (handleChange_not_recorded _ _ _ Hrec).
Qed.

(** C2, evaluated on the code: the name field holds ["J"] and carries the
    message recorded by a blur; typing ["Jo"] sets the draft, but the
    key [name] stays in the error map, bound to the empty string, and
    [Object.keys(errors)] still lists it. *)
Theorem handleChange_keeps_key :
  let st := form_state (draft "J" "" "" "") (<["name" := msg_name_short]> ∅) in
  let st' := handleChange InName (str "Jo") st in
  errors st !! "name" = Some msg_name_short ∧
  name (formData st') = str "Jo" ∧
  errors st' !! "name" = Some [] ∧
  errors st' !! "name" ≠ None ∧
  Object_keys (errors st') = ["name"].
Proof.
  simpl. repeat apply conj.
  - apply lookup_insert_eq.
  - reflexivity.
  - rewrite handleChange_recorded.
    + apply lookup_insert_eq.
    + simpl. by rewrite lookup_insert_eq.
  - rewrite handleChange_recorded.
    + by rewrite lookup_insert_eq.
    + simpl. by rewrite lookup_insert_eq.
  - rewrite handleChange_recorded.
    + simpl. rewrite insert_insert_eq. unfold Object_keys.
      by rewrite insert_empty, map_to_list_singleton.
    + simpl. by rewrite lookup_insert_eq.
Qed.

(** The state of C2 is the one a user reaches by typing ["J"] into the
    name box and leaving it. *)
Lemma typed_J_and_left_reaches_state :
  handle_all [Type_in InName (str "J"); Leave InName]
             (fetchContacts (state_init, backend_init)) =
  (form_state (draft "J" "" "" "") (<["name" := msg_name_short]> ∅),
   {| api_contacts := []; api_calls := [CallGet] |}).
Proof. reflexivity. Qed.

(* ================================================================= *)
(** ** A cleared message keeps the button disabled *)

Lemma ui_reachable_handle_all es sb :
  ui_reachable sb → offered_all es sb → ui_reachable (handle_all es sb).
Proof.
  revert sb. induction es as [|e es IH]; intros sb Hsb Hoff; simpl in *.
  - done.
  - destruct Hoff as [He Hes]. apply IH; [| done]. by constructor.
Qed.

Lemma error_key_disables st k :
  is_Some (errors st !! k) → submit_disabled st = true.
Proof.
  intros [m Hm]. unfold submit_disabled.
  destruct (truthy (isFormValid st)) eqn:Hv; [| done].
  apply isFormValid_truthy in Hv as (_ & _ & _ & Hnone).
  rewrite Hnone in Hm. discriminate.
Qed.

(** Typing, deleting a contact and the success timer all keep the keys
    of the error map; the submit button is not on offer. *)
Lemma error_key_survives e sb k :
  is_leave e = false → offered e sb.1 →
  is_Some (errors sb.1 !! k) → is_Some (errors (handle e sb).1 !! k).
Proof.
  destruct sb as [st b]. intros Hl Hoff Hk.
  destruct e as [f v|f|now iso|id|]; simpl in *.
  - by apply handleChange_keys.
  - discriminate.
  - by rewrite (error_key_disables st k Hk) in Hoff.
  - done.
  - done.
Qed.

Lemma error_key_survives_all es sb k :
  Forall (λ e, is_leave e = false) es → offered_all es sb →
  is_Some (errors sb.1 !! k) → is_Some (errors (handle_all es sb).1 !! k).
Proof.
  revert sb. induction es as [|e es IH]; intros sb Hl Hoff Hk; simpl in *.
  - done.
  - inversion Hl; subst. destruct Hoff as [He Hes].
    apply IH; [done | done |]. by apply error_key_survives.
Qed.

(** C8: a state of the running component in which the trimmed name is
    non-empty and the email and the phone pass their checks, yet
    [isFormValid] is falsy: [handleChange] cleared the message of the
    name field by binding the key to the empty string, so the error map
    still has one key.  No run of events without a blur enables the
    button again; a blur of that field, or a [validateForm] call, does. *)
Theorem stale_empty_entry_blocks_submit :
  ∃ sb : AppState * Backend,
    ui_reachable sb ∧
    name_nonblank sb.1 ∧ email_passes sb.1 ∧ phone_passes sb.1 ∧
    errors sb.1 !! "name" = Some [] ∧
    length (Object_keys (errors sb.1)) = 1 ∧
    truthy (isFormValid sb.1) = false ∧
    submit_disabled sb.1 = true ∧
    (∀ es, Forall (λ e, is_leave e = false) es → offered_all es sb →
           submit_disabled (handle_all es sb).1 = true) ∧
    truthy (isFormValid (handleBlur "name" sb.1)) = true ∧
    (validateForm sb.1).2 = true ∧
    truthy (isFormValid (validateForm sb.1).1) = true.
Proof.
  exists stale_state.
  assert (Hkey : errors stale_state.1 !! "name" = Some []) by reflexivity.
  repeat apply conj; try reflexivity.
  - apply ui_reachable_handle_all; [constructor |].
    simpl. repeat apply conj; done.
  - discriminate.
  - intros es Hl Hoff. apply (error_key_disables _ "name").
    apply error_key_survives_all; [done | done |]. exists []. exact Hkey.
Qed.

(* ================================================================= *)
(** ** [validateForm] *)

Lemma lookup_record_error k k' m (e : gmap string jsstring) :
  record_error k m e !! k' =
  if decide (k = k') then match m with Some s => Some s | None => e !! k' end
  else e !! k'.
Proof.
  unfold record_error. destruct m as [s|].
  - rewrite lookup_insert. by destruct (decide (k = k')).
  - by destruct (decide (k = k')).
Qed.

Lemma newErrors_name fd : newErrors fd !! "name" = check_name fd.
Proof.
  unfold newErrors. rewrite !lookup_record_error. simpl.
  by destruct (check_name fd).
Qed.

Lemma newErrors_email fd : newErrors fd !! "email" = check_email fd.
Proof.
  unfold newErrors. rewrite !lookup_record_error. simpl.
  destruct (check_email fd); [done |].
  by destruct (check_name fd).
Qed.

Lemma newErrors_phone fd : newErrors fd !! "phone" = check_phone fd.
Proof.
  unfold newErrors. rewrite !lookup_record_error. simpl.
  destruct (check_phone fd); [done |].
  destruct (check_email fd); by destruct (check_name fd).
Qed.

Lemma newErrors_other fd k :
  k ≠ "name" → k ≠ "email" → k ≠ "phone" → newErrors fd !! k = None.
Proof.
  intros H1 H2 H3. unfold newErrors. rewrite !lookup_record_error.
  rewrite !decide_False by congruence. apply lookup_empty.
Qed.

Lemma newErrors_empty fd :
  newErrors fd = ∅ ↔
  check_name fd = None ∧ check_email fd = None ∧ check_phone fd = None.
Proof.
  rewrite <- newErrors_name, <- newErrors_email, <- newErrors_phone. split.
  - intros ->. by rewrite !lookup_empty.
  - intros (H1 & H2 & H3). apply map_eq. intros k. rewrite lookup_empty.
    destruct (decide (k = "name")) as [->|?]; [done |].
    destruct (decide (k = "email")) as [->|?]; [done |].
    destruct (decide (k = "phone")) as [->|?]; [done |].
    by apply newErrors_other.
Qed.

Lemma check_name_cases fd :
  (trim (name fd) = [] → check_name fd = Some msg_name_required) ∧
  (trim (name fd) ≠ [] → length (trim (name fd)) < 2 →
   check_name fd = Some msg_name_short) ∧
  (2 ≤ length (trim (name fd)) → check_name fd = None).
Proof.
  unfold check_name.
  destruct (trim (name fd)) as [|c t] eqn:Ht; simpl.
  - split; [| split]; intros; try done; simpl in *; lia.
  - destruct (S (length t) <? 2) eqn:Hlt.
    + apply Nat.ltb_lt in Hlt.
      split; [| split]; intros; try done; simpl in *; lia.
    + apply Nat.ltb_ge in Hlt.
      split; [| split]; intros; try done; simpl in *; lia.
Qed.

Lemma check_email_cases fd :
  (trim (email fd) = [] → check_email fd = Some msg_email_required) ∧
  (trim (email fd) ≠ [] → validateEmail (email fd) = false →
   check_email fd = Some msg_email_invalid) ∧
  (trim (email fd) ≠ [] → validateEmail (email fd) = true →
   check_email fd = None).
Proof.
  unfold check_email.
  destruct (trim (email fd)) as [|c t] eqn:Ht; simpl.
  - split; [| split]; intros; done.
  - split; [| split]; [done | by intros _ -> | by intros _ ->].
Qed.

Lemma check_phone_cases fd :
  (trim (phone fd) = [] → check_phone fd = Some msg_phone_required) ∧
  (trim (phone fd) ≠ [] → validatePhone (phone fd) = false →
   check_phone fd = Some msg_phone_invalid) ∧
  (trim (phone fd) ≠ [] → validatePhone (phone fd) = true →
   check_phone fd = None).
Proof.
  unfold check_phone.
  destruct (trim (phone fd)) as [|c t] eqn:Ht; simpl.
  - split; [| split]; intros; done.
  - split; [| split]; [done | by intros _ -> | by intros _ ->].
Qed.

Lemma check_name_None fd :
  check_name fd = None ↔ 2 ≤ length (trim (name fd)).
Proof.
  unfold check_name.
  destruct (trim (name fd)) as [|c t]; simpl; [split; [done | lia] |].
  destruct (S (length t) <? 2) eqn:Hlt.
  - apply Nat.ltb_lt in Hlt. split; [done | lia].
  - apply Nat.ltb_ge in Hlt. done.
Qed.

Lemma check_email_None fd :
  check_email fd = None ↔
  trim (email fd) ≠ [] ∧ validateEmail (email fd) = true.
Proof.
  unfold check_email.
  destruct (trim (email fd)) as [|c t]; simpl; [by split; [| intros [? _]] |].
  destruct (validateEmail (email fd)); simpl; [done |].
  split; [done | by intros [_ ?]].
Qed.

Lemma check_phone_None fd :
  check_phone fd = None ↔
  trim (phone fd) ≠ [] ∧ validatePhone (phone fd) = true.
Proof.
  unfold check_phone.
  destruct (trim (phone fd)) as [|c t]; simpl; [by split; [| intros [? _]] |].
  destruct (validatePhone (phone fd)); simpl; [done |].
  split; [done | by intros [_ ?]].
Qed.

Lemma validateForm_result st :
  (validateForm st).2 = true ↔ newErrors (formData st) = ∅.
Proof.
  unfold validateForm. simpl. rewrite Object_keys_empty. split.
  - intros H. apply map_eq. intros k. by rewrite H, lookup_empty.
  - intros -> k. apply lookup_empty.
Qed.

Lemma handleSubmit_rejected_eq now iso st b :
  (validateForm st).2 = false →
  handleSubmit now iso (st, b) = ((validateForm st).1, b).
Proof.
  unfold handleSubmit. destruct (validateForm st) as [st1 ok]. simpl.
  by intros ->.
Qed.

Lemma handleSubmit_accepted_calls now iso st b :
  (validateForm st).2 = true →
  api_calls (handleSubmit now iso (st, b)).2 =
    api_calls b ++ [CallCreate (formData_obj (formData st))] ∧
  api_contacts (handleSubmit now iso (st, b)).2 =
    api_contacts b ++ [API.newContact now iso (formData_obj (formData st))].
Proof.
  unfold handleSubmit. destruct (validateForm st) as [st1 ok]. simpl.
  by intros ->.
Qed.

Lemma create_calls_app b l :
  length (List.filter is_create (api_calls b ++ l)) =
  create_calls b + length (List.filter is_create l).
Proof. unfold create_calls. by rewrite List.filter_app, length_app. Qed.

Lemma handleSubmit_click_calls w :
  api_calls (app_backend (handleSubmit_click w)) =
  if (validateForm (app_ui w)).2
  then api_calls (app_backend w) ++
         [CallCreate (formData_obj (formData (app_ui w)))]
  else api_calls (app_backend w).
Proof.
  unfold handleSubmit_click.
  destruct (validateForm (app_ui w)) as [st1 ok]. by destruct ok.
Qed.

(** C5, as amended: the error map built by [validateForm] has, for each
    of name, email and phone, the "required" message when the trimmed
    value is empty, otherwise the message of the field's rule when the
    rule fails (trimmed name shorter than 2; [validateEmail] false;
    [validatePhone] false), and no entry when the field passes; it has no
    other key.  On the empty draft it holds the three "required" messages
    and nothing else.  It is empty exactly when [validateForm] returns
    [true], which is exactly when [handleSubmit] hands the draft to
    [createContact], and exactly when all three fields pass.  As to the
    button's [isFormValid]: an empty map makes it truthy on the state
    [validateForm] leaves, and on the current state when the stored error
    map has no key; the two are not equivalent. *)
Theorem validateForm_error_entries (st : AppState) :
  let fd := formData st in
  let e := errors (validateForm st).1 in
  ((trim (name fd) = [] → e !! "name" = Some msg_name_required) ∧
   (trim (name fd) ≠ [] → length (trim (name fd)) < 2 →
    e !! "name" = Some msg_name_short) ∧
   (2 ≤ length (trim (name fd)) → e !! "name" = None)) ∧
  ((trim (email fd) = [] → e !! "email" = Some msg_email_required) ∧
   (trim (email fd) ≠ [] → validateEmail (email fd) = false →
    e !! "email" = Some msg_email_invalid) ∧
   (trim (email fd) ≠ [] → validateEmail (email fd) = true →
    e !! "email" = None)) ∧
  ((trim (phone fd) = [] → e !! "phone" = Some msg_phone_required) ∧
   (trim (phone fd) ≠ [] → validatePhone (phone fd) = false →
    e !! "phone" = Some msg_phone_invalid) ∧
   (trim (phone fd) ≠ [] → validatePhone (phone fd) = true →
    e !! "phone" = None)) ∧
  (∀ k, k ≠ "name" → k ≠ "email" → k ≠ "phone" → e !! k = None) ∧
  errors (validateForm (form_state (draft "" "" "" "") ∅)).1 =
    <["name" := msg_name_required]>
      (<["email" := msg_email_required]>
         (<["phone" := msg_phone_required]> ∅)) ∧
  (e = ∅ ↔ (validateForm st).2 = true) ∧
  (e = ∅ ↔
     ∀ w : AppWorld, app_ui w = st →
       api_calls (app_backend (handleSubmit_click w)) =
       api_calls (app_backend w) ++ [CallCreate (formData_obj fd)]) ∧
  (e = ∅ ↔
     2 ≤ length (trim (name fd)) ∧
     (trim (email fd) ≠ [] ∧ validateEmail (email fd) = true) ∧
     (trim (phone fd) ≠ [] ∧ validatePhone (phone fd) = true)) ∧
  (e = ∅ ↔ truthy (isFormValid (validateForm st).1) = true) ∧
  (e = ∅ → no_error_keys st → truthy (isFormValid st) = true).
Proof.
  cbv zeta. change (errors (validateForm st).1) with (newErrors (formData st)).
  assert (Hfields : newErrors (formData st) = ∅ →
                    name_nonblank st ∧ email_passes st ∧ phone_passes st).
  { rewrite newErrors_empty, check_name_None, check_email_None,
      check_phone_None.
    unfold name_nonblank, email_passes, phone_passes.
    intros (Hn & [_ He] & [_ Hp]). repeat split; try done.
    intros Hnil. rewrite Hnil in Hn. simpl in Hn. lia. }
  split; [| split; [| split; [| split; [| split; [| split; [| split;
    [| split; [| split]]]]]]]].
  - rewrite newErrors_name. apply check_name_cases.
  - rewrite newErrors_email. apply check_email_cases.
  - rewrite newErrors_phone. apply check_phone_cases.
  - intros k. apply newErrors_other.
  - reflexivity.
  - symmetry. apply validateForm_result.
  - rewrite <- validateForm_result. split.
    + intros Hv w <-. by rewrite handleSubmit_click_calls, Hv.
    + intros H. specialize (H (with_ui st (app_init 0)) eq_refl).
      rewrite handleSubmit_click_calls in H.
      change (app_ui (with_ui st (app_init 0))) with st in H.
      destruct (validateForm st).2; [done |].
      apply (f_equal (@length api_call)) in H.
      rewrite length_app in H. simpl in H. lia.
  - rewrite newErrors_empty, check_name_None, check_email_None,
      check_phone_None. done.
  - rewrite isFormValid_truthy. split.
    + intros He. destruct (Hfields He) as (Hn & Hem & Hp).
      repeat split; try done.
      intros k. simpl. by rewrite He, lookup_empty.
    + intros (_ & _ & _ & Hnone). apply map_eq. intros k.
      rewrite lookup_empty. apply (Hnone k).
  - intros He Hnone. apply isFormValid_truthy.
    destruct (Hfields He) as (Hn & Hem & Hp). done.
Qed.

(** C5, as stated, fails in both directions when "submittable" is the
    button's [isFormValid]: with a one-character name [isFormValid] is
    truthy and the map is not empty; with a stale key in the stored
    error map the map [validateForm] builds is empty and [isFormValid] is
    falsy. *)
Lemma empty_map_is_not_isFormValid :
  ¬ empty_iff_submittable
      (form_state (draft "J" "jo@x.com" "1234567890" "") ∅) ∧
  ¬ empty_iff_submittable stale_state.1.
Proof.
  split; intros [H1 H2].
  - specialize (H2 eq_refl).
    apply (f_equal (λ e : gmap string jsstring, e !! "name")) in H2.
    revert H2. vm_compute. discriminate.
  - specialize (H1 eq_refl). revert H1. vm_compute. discriminate.
Qed.

(* ================================================================= *)
(** ** [handleSubmit] on a rejected draft *)

(** C6: when [validateForm] rejects the draft, [handleSubmit] returns
    after recording the messages: the backend has received no call, its
    collection is the same, and [createContact] has run no more often
    than before. *)
Theorem handleSubmit_rejected (now : Z) (iso : jsstring)
    (st : AppState) (b : Backend) :
  (validateForm st).2 = false →
  (handleSubmit now iso (st, b)).2 = b ∧
  api_calls (handleSubmit now iso (st, b)).2 = api_calls b ∧
  api_contacts (handleSubmit now iso (st, b)).2 = api_contacts b ∧
  create_calls (handleSubmit now iso (st, b)).2 = create_calls b ∧
  (handleSubmit now iso (st, b)).1 = (validateForm st).1.
Proof.
  intros Hv. by rewrite (handleSubmit_rejected_eq _ _ _ _ Hv).
Qed.

(** The draft with name ["J"]: the button is enabled, the click is
    rejected by [validateForm], and the store that had received no
    [createContact] call still has received none. *)
Lemma handleSubmit_rejected_witness :
  let st := form_state (draft "J" "jo@x.com" "1234567890" "") ∅ in
  let b := (fetchContacts (state_init, backend_init)).2 in
  (submit_disabled st = false ∧ create_calls b = 0) ∧
  (handleSubmit 1700000000000 [] (st, b)).2 = b ∧
  api_calls (handleSubmit 1700000000000 [] (st, b)).2 = api_calls b ∧
  api_contacts (handleSubmit 1700000000000 [] (st, b)).2 = api_contacts b ∧
  create_calls (handleSubmit 1700000000000 [] (st, b)).2 = create_calls b ∧
  (handleSubmit 1700000000000 [] (st, b)).1 = (validateForm st).1.
Proof.
  split; [split; reflexivity |].
  apply (handleSubmit_rejected 1700000000000 []
           (form_state (draft "J" "jo@x.com" "1234567890" "") ∅)
           (fetchContacts (state_init, backend_init)).2).
  reflexivity.
Defined.

(* ================================================================= *)
(** ** The store: delete *)

Lemma deleteContact_elem id (contacts : list obj) (c : obj) :
  c ∈ (API.deleteContact id contacts).1 ↔
  c ∈ contacts ∧ c !! "_id" ≠ Some id.
Proof. simpl. rewrite list_elem_of_filter. tauto. Qed.

Lemma deleteContact_twice id (contacts : list obj) :
  (API.deleteContact id (API.deleteContact id contacts).1).1 =
  (API.deleteContact id contacts).1.
Proof.
  simpl. induction contacts as [|c l IH]; [done |].
  rewrite filter_cons. destruct (decide (c !! "_id" ≠ Some id)) as [Hc|Hc].
  - rewrite filter_cons_True by done. by rewrite IH.
  - done.
Qed.

Lemma deleteContact_absent id (contacts : list obj) :
  (∀ c : obj, c ∈ contacts → c !! "_id" ≠ Some id) →
  (API.deleteContact id contacts).1 = contacts.
Proof.
  simpl. induction contacts as [|c l IH]; intros H; [done |].
  rewrite filter_cons_True by (apply H; left).
  f_equal. apply IH. intros c' Hc'. apply H. by right.
Qed.

(** C4: [deleteContact(id)] keeps exactly the entries whose [_id]
    differs from [id], in their order, and answers [success: true]
    whatever [id] is; when no entry has that [_id] the store is left as
    it was.  A second call answers [success: true] again and changes
    nothing, and already after the first call [getContacts] lists no
    entry with that [_id]. *)
Theorem deleteContact_idempotent (id : jsstring) (contacts : list obj) :
  let r1 := API.deleteContact id contacts in
  let r2 := API.deleteContact id r1.1 in
  success r1.2 = true ∧
  success r2.2 = true ∧
  r2.1 = r1.1 ∧
  (∀ c : obj, c ∈ r1.1 ↔ c ∈ contacts ∧ c !! "_id" ≠ Some id) ∧
  r1.1 `sublist_of` contacts ∧
  ((∀ c : obj, c ∈ contacts → c !! "_id" ≠ Some id) → r1.1 = contacts) ∧
  (∀ c : obj, c ∈ response_list (API.getContacts r1.1).2 →
              c !! "_id" ≠ Some id) ∧
  (∀ c : obj, c ∈ response_list (API.getContacts r2.1).2 →
              c !! "_id" ≠ Some id).
Proof.
  cbv zeta. repeat apply conj.
  - reflexivity.
  - reflexivity.
  - apply deleteContact_twice.
  - intros c. by apply deleteContact_elem.
  - simpl. apply sublist_filter.
  - apply deleteContact_absent.
  - intros c Hc. simpl in Hc. apply list_elem_of_In, in_rev in Hc.
    apply list_elem_of_In, list_elem_of_filter in Hc. tauto.
  - intros c Hc. rewrite deleteContact_twice in Hc.
    simpl in Hc. apply list_elem_of_In, in_rev in Hc.
    apply list_elem_of_In, list_elem_of_filter in Hc. tauto.
Qed.

(* ================================================================= *)
(** ** The store: create *)

Lemma newContact_lookup now iso (d : obj) k :
  API.newContact now iso d !! k =
  if decide (k = "createdAt") then Some iso
  else match d !! k with
       | Some v => Some v
       | None => if decide (k = "_id") then Some (Number_toString now)
                 else None
       end.
Proof.
  unfold API.newContact.
  destruct (decide (k = "createdAt")) as [->|Hc].
  - apply lookup_insert_eq.
  - rewrite lookup_insert_ne by done.
    rewrite lookup_union. destruct (d !! k) as [v|] eqn:Hd.
    + by destruct (<["_id":=Number_toString now]> (∅ : obj) !! k).
    + destruct (decide (k = "_id")) as [->|Hi].
      * by rewrite lookup_insert_eq.
      * by rewrite lookup_insert_ne, lookup_empty.
Qed.

Lemma newContact_id now iso (d : obj) :
  d !! "_id" = None →
  API.newContact now iso d !! "_id" = Some (Number_toString now).
Proof. intros Hd. rewrite newContact_lookup, Hd. done. Qed.

(** C9: the contact that [createContact] appends to the store and
    returns has the draft's [name], [email], [phone] and [message] as
    they were given (absent when absent); every property of the draft
    other than [createdAt] is copied unchanged, and the properties of
    the contact are those of the draft plus [_id] and [createdAt].  A
    name typed with blanks around it is stored with them. *)
Theorem createContact_keeps_draft (now : Z) (iso : jsstring) (d : obj)
    (contacts : list obj) :
  let r := API.createContact now iso d contacts in
  ∃ c : obj,
    data r.2 = OneContact c ∧ success r.2 = true ∧
    r.1 = contacts ++ [c] ∧
    c !! "name" = d !! "name" ∧ c !! "email" = d !! "email" ∧
    c !! "phone" = d !! "phone" ∧ c !! "message" = d !! "message" ∧
    (∀ k, k ≠ "_id" → k ≠ "createdAt" → c !! k = d !! k) ∧
    (∀ k, k ≠ "createdAt" → is_Some (d !! k) → c !! k = d !! k) ∧
    dom c = dom d ∪ {["_id"; "createdAt"]} ∧
    c !! "createdAt" = Some iso ∧
    API.newContact now iso
      (formData_obj (draft "  Jo  " "jo@x.com" " 12345 67890 " " hi "))
      !! "name" = Some (str "  Jo  ").
Proof.
  cbv zeta. exists (API.newContact now iso d).
  assert (Hk : ∀ k, k ≠ "_id" → k ≠ "createdAt" →
                    API.newContact now iso d !! k = d !! k).
  { intros k H1 H2. rewrite newContact_lookup.
    rewrite !decide_False by done. by destruct (d !! k). }
  repeat apply conj; try reflexivity; try (by apply Hk).
  - intros k Hc [v Hv]. rewrite newContact_lookup, Hv.
    by rewrite decide_False.
  - apply set_eq. intros k.
    rewrite elem_of_dom, newContact_lookup, elem_of_union, elem_of_dom.
    rewrite elem_of_union, !elem_of_singleton.
    destruct (decide (k = "createdAt")) as [->|Hc].
    + split; eauto.
    + destruct (d !! k) as [v|] eqn:Hd.
      * split; eauto.
      * destruct (decide (k = "_id")) as [->|Hi].
        -- split; eauto.
        -- split; [by intros [? ?] |]. intros [[? ?]|[?|?]]; done.
  - apply lookup_insert_eq.
Qed.

(* ================================================================= *)
(** ** The store: create, then list *)

Lemma occurrences_rev (c : obj) (l : list obj) :
  occurrences c (rev l) = occurrences c l.
Proof.
  unfold occurrences. induction l as [|x l IH]; [done |].
  simpl. rewrite filter_app, length_app, IH, !filter_cons.
  destruct (decide (x = c)); simpl; lia.
Qed.

Lemma occurrences_absent (c : obj) (l : list obj) :
  (∀ x : obj, x ∈ l → x ≠ c) → occurrences c l = 0.
Proof.
  unfold occurrences. induction l as [|x l IH]; intros H; [done |].
  rewrite filter_cons_False by (apply H; left).
  apply IH. intros y Hy. apply H. by right.
Qed.

(** A contact whose identifier no stored entry has is equal to none of
    them. *)
Lemma fresh_id_fresh_contact (c : obj) (l : list obj) :
  (∀ x : obj, x ∈ l → x !! "_id" ≠ c !! "_id") →
  ∀ x : obj, x ∈ l → x ≠ c.
Proof. intros H x Hx ->. by apply (H c Hx). Qed.

(** The list is the collection, newest first, whatever the store holds;
    the number of entries equal to the new contact is one more than
    before the create. *)
Lemma create_then_list_general now iso (d : obj) (contacts : list obj) :
  let c := API.newContact now iso d in
  let r := API.createContact now iso d contacts in
  let l := response_list (API.getContacts r.1).2 in
  data r.2 = OneContact c ∧ l = c :: rev contacts ∧
  occurrences c l = S (occurrences c contacts).
Proof.
  cbv zeta.
  assert (Hl : response_list
                 (API.getContacts (API.createContact now iso d contacts).1).2 =
               API.newContact now iso d :: rev contacts).
  { simpl. by rewrite rev_app_distr. }
  rewrite Hl. split; [done |]. split; [done |].
  unfold occurrences at 1. rewrite filter_cons_True by done.
  cbn [length]. f_equal. apply occurrences_rev.
Qed.

Lemma occurrences_zero (c : obj) (l : list obj) :
  occurrences c l = 0 ↔ ∀ x : obj, x ∈ l → x ≠ c.
Proof.
  split; [| apply occurrences_absent].
  unfold occurrences. intros H x Hx ->.
  assert (Hin : c ∈ filter (λ x : obj, x = c) l)
    by (by apply list_elem_of_filter).
  destruct (filter (λ x : obj, x = c) l); [by apply elem_of_nil in Hin |].
  discriminate.
Qed.

(** C3, as amended: for every store state, [createContact] followed by
    [getContacts] returns a list that starts with the created contact
    and is the collection in reverse insertion order, so after a second
    create its contact comes first and the first one second.  The list
    holds one more entry equal to the created contact than the store did
    before: it holds exactly one if and only if the store held none,
    which is the case whenever no stored entry has the new contact's
    identifier. *)
Theorem create_then_list_round_trip (now : Z) (iso : jsstring) (d : obj)
    (contacts : list obj) :
  let r := API.createContact now iso d contacts in
  let l := response_list (API.getContacts r.1).2 in
  ∃ c : obj,
    data r.2 = OneContact c ∧
    head l = Some c ∧
    l = c :: rev contacts ∧
    occurrences c l = S (occurrences c contacts) ∧
    (create_then_list_holds now iso d contacts ↔
     ∀ x : obj, x ∈ contacts → x ≠ c) ∧
    ((∀ x : obj, x ∈ contacts → x !! "_id" ≠ c !! "_id") →
     create_then_list_holds now iso d contacts) ∧
    ∀ now2 iso2 (d2 : obj),
      let r2 := API.createContact now2 iso2 d2 r.1 in
      ∃ c2 : obj,
        data r2.2 = OneContact c2 ∧
        response_list (API.getContacts r2.1).2 = c2 :: c :: rev contacts.
Proof.
  cbv zeta.
  destruct (create_then_list_general now iso d contacts) as (Hd & Hl & Ho).
  cbv zeta in Hl, Ho.
  assert (Hiff : create_then_list_holds now iso d contacts ↔
                 ∀ x : obj, x ∈ contacts → x ≠ API.newContact now iso d).
  { rewrite <- occurrences_zero. unfold create_then_list_holds. cbv zeta.
    split.
    - intros (c & Hc & _ & Hocc). rewrite Hd in Hc. inversion Hc; subst c.
      rewrite Ho in Hocc. lia.
    - intros Hz. exists (API.newContact now iso d).
      split; [done |]. split; [by rewrite Hl |]. rewrite Ho, Hz. done. }
  exists (API.newContact now iso d).
  split; [done |]. split; [by rewrite Hl |]. split; [done |].
  split; [done |]. split; [done |]. split.
  - intros Hfresh. apply Hiff. by apply fresh_id_fresh_contact.
  - intros now2 iso2 d2. exists (API.newContact now2 iso2 d2).
    split; [done |]. simpl. by rewrite !rev_app_distr.
Qed.

(** A store that holds another contact: the round trip holds. *)
Lemma create_then_list_round_trip_witness :
  create_then_list_holds 1700000000600 iso_sample al
    [API.newContact 1700000000000 iso_sample jo].
Proof.
  destruct (create_then_list_round_trip 1700000000600 iso_sample al
              [API.newContact 1700000000000 iso_sample jo])
    as (c & Hd & _ & _ & _ & _ & Hfresh & _).
  apply Hfresh. intros x Hx Heq.
  apply list_elem_of_singleton in Hx. subst x.
  simpl in Hd. inversion Hd; subst c.
  revert Heq. vm_compute. discriminate.
Defined.

(** The store state and the clock reading of the next lemma arise when
    the same draft is submitted twice without waiting: after the first
    timer has fired, the second is due at the same millisecond. *)
Lemma same_reading_twice_reachable :
  run [Call (TaskCreate jo); Call (TaskCreate jo); Tick 500; Fire iso_sample]
      (world_init 1699999999500) =
  Some {| clock := 500; skew := 1699999999500;
          store := (API.createContact 1700000000000 iso_sample jo
                      API.contacts_init).1;
          timers := [(500%Z, TaskCreate jo)] |}.
Proof. reflexivity. Qed.

(** C3, as stated, fails when the store already holds an equal contact:
    the same draft created twice at the same clock readings. *)
Lemma create_then_list_counterexample :
  ¬ create_then_list_holds 1700000000000 iso_sample jo
      (API.createContact 1700000000000 iso_sample jo API.contacts_init).1.
Proof.
  intros (c & Hc & _ & Hocc).
  destruct (create_then_list_general 1700000000000 iso_sample jo
    (API.createContact 1700000000000 iso_sample jo API.contacts_init).1)
    as (Hd & _ & Ho).
  cbv zeta in Hd, Ho. rewrite Hd in Hc. inversion Hc; subst c.
  rewrite Ho in Hocc. simpl in Hocc.
  unfold occurrences in Hocc. rewrite filter_cons_True in Hocc by done.
  discriminate.
Qed.

(* ================================================================= *)
(** ** Identifiers *)

Lemma str_inj s1 s2 : str s1 = str s2 → s1 = s2.
Proof.
  unfold str. intros H.
  rewrite <- (string_of_list_ascii_of_string s1).
  rewrite <- (string_of_list_ascii_of_string s2). f_equal.
  revert H. generalize (list_ascii_of_string s1) (list_ascii_of_string s2).
  induction l as [|a l IH]; intros [|b l'] H; simpl in H; try discriminate.
  - done.
  - inversion H as [[Hab Hl]]. f_equal; [| by apply IH].
    rewrite <- (ascii_N_embedding a), <- (ascii_N_embedding b).
    by rewrite Hab.
Qed.

Lemma Z_to_int_proper z :
  Z.to_int z ≠ Decimal.Pos Decimal.Nil ∧ Z.to_int z ≠ Decimal.Neg Decimal.Nil.
Proof.
  destruct z as [|p|p]; simpl; split; try discriminate; intros [= H];
    by apply Unsigned.to_uint_nonnil in H.
Qed.

(** Distinct clock readings print as distinct identifiers. *)
Lemma Number_toString_inj z1 z2 :
  Number_toString z1 = Number_toString z2 → z1 = z2.
Proof.
  unfold Number_toString. intros H%str_inj.
  apply DecimalZ.to_int_inj.
  destruct (Z_to_int_proper z1) as [H1 H1'].
  destruct (Z_to_int_proper z2) as [H2 H2'].
  pose proof (NilZero.isi _ H1 H1') as E1.
  pose proof (NilZero.isi _ H2 H2') as E2.
  rewrite H in E1. rewrite E1 in E2. by inversion E2.
Qed.

Lemma ids_snoc (contacts : list obj) (c : obj) :
  ids (contacts ++ [c]) = ids contacts ++ [c !! "_id"].
Proof. unfold ids. by rewrite fmap_app. Qed.

Lemma NoDup_ids_snoc (contacts : list obj) (c : obj) :
  NoDup (ids contacts) →
  (∀ x : obj, x ∈ contacts → x !! "_id" ≠ c !! "_id") →
  NoDup (ids (contacts ++ [c])).
Proof.
  intros Hnd Hfresh. rewrite ids_snoc. apply NoDup_app.
  split; [done |]. split.
  - intros i Hi Hc. apply list_elem_of_singleton in Hc. subst i.
    apply list_elem_of_fmap in Hi as (x & Hx & Hin).
    by apply (Hfresh x Hin).
  - apply NoDup_singleton.
Qed.

Lemma NoDup_ids_delete id (contacts : list obj) :
  NoDup (ids contacts) → NoDup (ids (API.deleteContact id contacts).1).
Proof.
  intros Hnd. apply (sublist_NoDup _ (ids contacts)); [done |].
  unfold ids. simpl. apply fmap_sublist, sublist_filter.
Qed.

(* ================================================================= *)
(** ** The timers *)

Lemma pop_next_perm ts x rest :
  pop_next ts = Some (x, rest) → ts ≡ₚ x :: rest.
Proof.
  revert x rest. induction ts as [|y ts IH]; intros x rest H; simpl in H.
  - discriminate.
  - destruct (pop_next ts) as [[z r]|] eqn:Hp.
    + destruct (y.1 <=? z.1)%Z.
      * by inversion H; subst.
      * inversion H; subst. rewrite (IH _ _ eq_refl). apply Permutation_swap.
    + inversion H; subst. destruct ts; [done |].
      simpl in Hp. destruct (pop_next ts) as [[? ?]|];
        [destruct (_ <=? _)%Z |]; discriminate.
Qed.

Lemma create_pending_false w :
  create_pending w = false → pending_creates (timers w) = [].
Proof.
  unfold create_pending, pending_creates.
  induction (timers w) as [|x ts IH]; simpl; [done |].
  rewrite orb_false_iff. intros [Hx Hts].
  rewrite filter_cons_False by congruence. by apply IH.
Qed.

Lemma pending_creates_elem ts due d :
  (due, TaskCreate d) ∈ ts → (due, TaskCreate d) ∈ pending_creates ts.
Proof. intros H. apply list_elem_of_filter. by split. Qed.

(** An orderly run is a run. *)
Lemma run_orderly_run acts w w' :
  run_orderly acts w = Some w' → run acts w = Some w'.
Proof.
  revert w. induction acts as [|a acts IH]; intros w; simpl; [done |].
  destruct (orderly a w); [| discriminate].
  destruct (do_action a w); [apply IH | done].
Qed.

Lemma orderly_inv_init t0 : orderly_inv (world_init t0).
Proof.
  unfold orderly_inv. simpl. split; [constructor |]. split; [lia |].
  split.
  - intros due d H. by apply elem_of_nil in H.
  - intros c H. by apply elem_of_nil in H.
Qed.

Lemma orderly_inv_call t w :
  orderly_inv w →
  is_create_task t && create_pending w = false →
  plain_draft (Call t) →
  orderly_inv {| clock := clock w; skew := skew w; store := store w;
                 timers := timers w ++ [((clock w + delay t)%Z, t)] |}.
Proof.
  intros (Hnd & Hone & Hplain & Hids) Hfree Hdraft.
  unfold orderly_inv, Date_now in *. simpl.
  split; [done |]. split; [| split].
  - unfold pending_creates in *. rewrite filter_app, length_app.
    destruct (is_create_task t) eqn:Ht; simpl in Hfree.
    + apply create_pending_false in Hfree. unfold pending_creates in Hfree.
      rewrite Hfree. rewrite filter_cons_True by done. simpl. lia.
    + rewrite filter_cons_False by (simpl; congruence). simpl. lia.
  - intros due d Hin. apply elem_of_app in Hin as [Hin|Hin].
    + by apply (Hplain due).
    + apply list_elem_of_singleton in Hin. inversion Hin; subst. done.
  - intros c Hc. destruct (Hids c Hc) as (tc & Hid & Hle & Hdue).
    exists tc. split; [done |]. split; [done |].
    intros due d Hin. apply elem_of_app in Hin as [Hin|Hin].
    + by apply (Hdue due d).
    + apply list_elem_of_singleton in Hin. inversion Hin; subst.
      simpl. lia.
Qed.

Lemma orderly_inv_tick dt w :
  orderly_inv w → (0 ≤ dt)%Z →
  orderly_inv {| clock := (clock w + dt)%Z; skew := skew w;
                 store := store w; timers := timers w |}.
Proof.
  intros (Hnd & Hone & Hplain & Hids) Hdt.
  unfold orderly_inv, Date_now in *. simpl.
  split; [done |]. split; [done |]. split; [done |].
  intros c Hc. destruct (Hids c Hc) as (tc & Hid & Hle & Hdue).
  exists tc. split; [done |]. split; [lia | done].
Qed.

Lemma orderly_inv_adjust dz w :
  orderly_inv w → (0 ≤ dz)%Z →
  orderly_inv {| clock := clock w; skew := (skew w + dz)%Z;
                 store := store w; timers := timers w |}.
Proof.
  intros (Hnd & Hone & Hplain & Hids) Hdz.
  unfold orderly_inv, Date_now in *. simpl.
  split; [done |]. split; [done |]. split; [done |].
  intros c Hc. destruct (Hids c Hc) as (tc & Hid & Hle & Hdue).
  exists tc. split; [done |]. split; [lia |].
  intros due d Hin. specialize (Hdue due d Hin). lia.
Qed.

Lemma orderly_inv_fire due t rest iso w :
  orderly_inv w →
  pop_next (timers w) = Some ((due, t), rest) → (due ≤ clock w)%Z →
  orderly_inv (resume t iso w rest).
Proof.
  intros (Hnd & Hone & Hplain & Hids) Hpop Hdue.
  apply pop_next_perm in Hpop.
  assert (Hsub : ∀ x, x ∈ rest → x ∈ timers w).
  { intros x Hx. rewrite Hpop. by right. }
  assert (Hcount : length (pending_creates (timers w)) =
                   length (pending_creates ((due, t) :: rest))).
  { unfold pending_creates. by rewrite Hpop. }
  assert (Hrest : length (pending_creates rest) ≤ 1).
  { rewrite Hcount in Hone. unfold pending_creates in *.
    rewrite filter_cons in Hone. destruct (decide _); simpl in Hone; lia. }
  destruct t as [d| |id]; unfold orderly_inv in *; simpl;
    unfold Date_now in *; simpl.
  - assert (Hd : d !! "_id" = None).
    { apply (Hplain due). rewrite Hpop. by left. }
    assert (Hnone : pending_creates rest = []).
    { rewrite Hcount in Hone. unfold pending_creates in *.
      rewrite filter_cons_True in Hone by done. simpl in Hone.
      apply length_zero_iff_nil. lia. }
    split; [| split; [| split]].
    + apply NoDup_ids_snoc; [done |].
      intros x Hx. destruct (Hids x Hx) as (tx & Hid & _ & Hlt).
      rewrite Hid, (newContact_id _ _ _ Hd). intros [= Heq].
      apply Number_toString_inj in Heq.
      assert (tx < due + skew w)%Z
        by (apply (Hlt due d); rewrite Hpop; by left).
      lia.
    + done.
    + intros due' d' Hin. apply (Hplain due'). by apply Hsub.
    + intros c Hc. apply elem_of_app in Hc as [Hc|Hc].
      * destruct (Hids c Hc) as (tc & Hid & Hle & Hlt).
        exists tc. split; [done |]. split; [done |].
        intros due' d' Hin. apply (Hlt due' d'). by apply Hsub.
      * apply list_elem_of_singleton in Hc. subst c.
        exists (clock w + skew w)%Z. split; [by apply newContact_id |].
        split; [lia |].
        intros due' d' Hin. apply pending_creates_elem in Hin.
        rewrite Hnone in Hin. by apply elem_of_nil in Hin.
  - split; [done |]. split; [done |]. split.
    + intros due' d' Hin. apply (Hplain due'). by apply Hsub.
    + intros c Hc. destruct (Hids c Hc) as (tc & Hid & Hle & Hlt).
      exists tc. split; [done |]. split; [done |].
      intros due' d' Hin. apply (Hlt due' d'). by apply Hsub.
  - split; [by apply (NoDup_ids_delete id) |]. split; [done |]. split.
    + intros due' d' Hin. apply (Hplain due'). by apply Hsub.
    + intros c Hc. apply list_elem_of_filter in Hc as [_ Hc].
      destruct (Hids c Hc) as (tc & Hid & Hle & Hlt).
      exists tc. split; [done |]. split; [done |].
      intros due' d' Hin. apply (Hlt due' d'). by apply Hsub.
Qed.

Lemma orderly_inv_run acts w w' :
  Forall plain_draft acts → orderly_inv w →
  run_orderly acts w = Some w' → orderly_inv w'.
Proof.
  revert w. induction acts as [|a acts IH]; intros w Hplain Hinv Hrun;
    simpl in Hrun.
  - by inversion Hrun; subst.
  - inversion Hplain as [|? ? Ha Hacts]; subst.
    destruct (orderly a w) eqn:Hord; [| discriminate].
    destruct (do_action a w) as [w1|] eqn:Hdo; [| discriminate].
    apply (IH w1); [done | | done].
    destruct a as [t|dt|dz|iso]; simpl in Hdo, Hord.
    + inversion Hdo; subst. apply orderly_inv_call; [done | | done].
      by apply negb_true_iff.
    + destruct (0 <=? dt)%Z eqn:Hdt; [| discriminate].
      inversion Hdo; subst. apply orderly_inv_tick; [done | lia].
    + inversion Hdo; subst. apply orderly_inv_adjust; [done | lia].
    + destruct (pop_next (timers w)) as [[[due t] rest]|] eqn:Hpop;
        [| discriminate].
      destruct (due <=? clock w)%Z eqn:Hdue; [| discriminate].
      inversion Hdo; subst. eapply orderly_inv_fire; [done | done | lia].
Qed.

Lemma do_action_plain a w w' :
  plain_draft a →
  (∀ due d, (due, TaskCreate d) ∈ timers w → d !! "_id" = None) →
  do_action a w = Some w' →
  ∀ due d, (due, TaskCreate d) ∈ timers w' → d !! "_id" = None.
Proof.
  intros Ha Hw Hdo due d Hin. destruct a as [t|dt|dz|iso]; simpl in Hdo.
  - inversion Hdo; subst. simpl in Hin.
    apply elem_of_app in Hin as [Hin|Hin]; [by apply (Hw due) |].
    apply list_elem_of_singleton in Hin. inversion Hin; subst. done.
  - destruct (0 <=? dt)%Z; [| discriminate].
    inversion Hdo; subst. by apply (Hw due).
  - inversion Hdo; subst. by apply (Hw due).
  - destruct (pop_next (timers w)) as [[[due' t] rest]|] eqn:Hpop;
      [| discriminate].
    destruct (due' <=? clock w)%Z; [| discriminate].
    inversion Hdo; subst. apply pop_next_perm in Hpop.
    apply (Hw due). rewrite Hpop. right. by destruct t.
Qed.

(** Every entry of the store was there at the start or was appended by
    a [createContact] body of the run. *)
Lemma run_created acts w0 w :
  Forall plain_draft acts →
  (∀ due d, (due, TaskCreate d) ∈ timers w0 → d !! "_id" = None) →
  run acts w0 = Some w →
  ∀ c : obj, c ∈ store w → c ∈ store w0 ∨ created_in_run w0 acts c.
Proof.
  revert w0. induction acts as [|a acts IH]; intros w0 Hplain Hw0 Hrun c Hc;
    simpl in Hrun.
  - inversion Hrun; subst. by left.
  - inversion Hplain as [|? ? Ha Hacts]; subst.
    destruct (do_action a w0) as [w1|] eqn:Hdo; [| discriminate].
    pose proof (do_action_plain a w0 w1 Ha Hw0 Hdo) as Hw1.
    destruct (IH w1 Hacts Hw1 Hrun c Hc) as [Hin|Hcr].
    + destruct a as [t|dt|dz|iso]; simpl in Hdo.
      * inversion Hdo; subst. by left.
      * destruct (0 <=? dt)%Z; [| discriminate].
        inversion Hdo; subst. by left.
      * inversion Hdo; subst. by left.
      * destruct (pop_next (timers w0)) as [[[due t] rest]|] eqn:Hpop;
          [| discriminate].
        destruct (due <=? clock w0)%Z eqn:Hdue; [| discriminate].
        inversion Hdo; subst. destruct t as [d| |id]; simpl in Hin.
        -- apply elem_of_app in Hin as [Hin|Hin]; [by left |].
           apply list_elem_of_singleton in Hin. right.
           exists [], iso, acts, w0, due, d, rest.
           repeat (split; [done || lia |]).
           subst c. apply newContact_id. apply (Hw0 due).
           apply pop_next_perm in Hpop. rewrite Hpop. by left.
        -- by left.
        -- left. by apply list_elem_of_filter in Hin as [_ ?].
    + right.
      destruct Hcr as (acts1 & iso & acts2 & w2 & due & d & rest &
                       -> & Hr & Hpop & Hdue & Hc' & Hid).
      exists (a :: acts1), iso, acts2, w2, due, d, rest.
      split; [done |]. split; [| done]. simpl. by rewrite Hdo.
Qed.

(** C7, as amended: from the empty store, along every run in which no
    [createContact] call is made while an earlier one is still waiting
    for its timer, the system clock is never set back and the drafts
    have no [_id] property of their own, the store holds contacts with
    pairwise distinct identifiers, and the identifier of each contact is
    the decimal form of what [Date.now()] read when the body of its own
    [createContact] call ran. *)
Theorem ids_distinct_when_orderly (t0 : Z) (acts : list action) (w : World) :
  Forall plain_draft acts →
  run_orderly acts (world_init t0) = Some w →
  run acts (world_init t0) = Some w ∧
  NoDup (ids (store w)) ∧
  (∀ c : obj, c ∈ store w → created_in_run (world_init t0) acts c) ∧
  ∀ c : obj, c ∈ store w →
    ∃ t : Z, (t ≤ Date_now w)%Z ∧ c !! "_id" = Some (Number_toString t).
Proof.
  intros Hplain Hrun.
  pose proof (run_orderly_run _ _ _ Hrun) as Hrun'.
  split; [done |].
  destruct (orderly_inv_run acts _ _ Hplain (orderly_inv_init t0) Hrun)
    as (Hnd & _ & _ & Hids).
  split; [done |]. split.
  - intros c Hc.
    destruct (run_created acts (world_init t0) w Hplain) with (c := c)
      as [Hin|Hcr]; try done.
    + intros due d Hin. by apply elem_of_nil in Hin.
    + by apply elem_of_nil in Hin.
  - intros c Hc. destruct (Hids c Hc) as (t & Hid & Hle & _).
    exists t. by split.
Qed.

Lemma ids_distinct_when_orderly_witness :
  Forall plain_draft orderly_sample ∧
  run_orderly orderly_sample (world_init 1699999999500) =
    Some orderly_result ∧
  ids (store orderly_result) =
    [Some (str "1700000000000"); Some (str "1700000000502")] ∧
  run orderly_sample (world_init 1699999999500) = Some orderly_result ∧
  NoDup (ids (store orderly_result)) ∧
  (∀ c : obj, c ∈ store orderly_result →
     created_in_run (world_init 1699999999500) orderly_sample c) ∧
  ∀ c : obj, c ∈ store orderly_result →
    ∃ t : Z, (t ≤ Date_now orderly_result)%Z ∧
             c !! "_id" = Some (Number_toString t).
Proof.
  assert (Hplain : Forall plain_draft orderly_sample).
  { repeat constructor. }
  split; [exact Hplain |]. split; [reflexivity |]. split; [reflexivity |].
  apply (ids_distinct_when_orderly 1699999999500 orderly_sample
           orderly_result Hplain).
  reflexivity.
Defined.

(** C7, as stated, fails: two [createContact] calls made without waiting
    for the first have their timers due at the same millisecond, the two
    bodies read the same [Date.now()], and the store holds two contacts
    with one identifier. *)
Lemma ids_collide_when_overlapping : ¬ ids_always_distinct.
Proof.
  intros H.
  assert (Hrun : run overlapping_sample (world_init 1699999999500) =
                 Some overlapping_result) by reflexivity.
  assert (Hids : ids (store overlapping_result) =
                 [Some (str "1700000000000"); Some (str "1700000000000")])
    by reflexivity.
  apply H in Hrun. rewrite Hids in Hrun.
  inversion Hrun as [|? ? Hnotin _]; subst. apply Hnotin. by left.
Qed.

(** The other way to a collision: both creates are awaited, but the
    system clock is set back in between. *)
Lemma ids_collide_when_clock_set_back :
  ∃ w : World,
    run set_back_sample (world_init 1699999999500) = Some w ∧
    ids (store w) =
      [Some (str "1700000000000"); Some (str "1700000000000")].
Proof. eexists. split; reflexivity. Qed.

(* ================================================================= *)
(** * Further properties of the code *)

(* ================================================================= *)
(** ** [trim] *)

Lemma trimStart_head s :
  trimStart s = [] ∨
  ∃ c t, trimStart s = c :: t ∧ is_white_space c = false.
Proof.
  induction s as [|c s IH]; simpl; [by left |].
  destruct (is_white_space c) eqn:Hc; [done |]. right. eauto.
Qed.

Lemma trimStart_nil s :
  trimStart s = [] ↔ forallb is_white_space s = true.
Proof.
  induction s as [|c s IH]; simpl; [done |].
  destruct (is_white_space c); simpl; [done |]. split; discriminate.
Qed.

Lemma trimStart_keep c s :
  is_white_space c = false → trimStart (c :: s) = c :: s.
Proof. simpl. by intros ->. Qed.

Lemma forallb_rev (p : code_unit → bool) s :
  forallb p (rev s) = forallb p s.
Proof.
  induction s as [|c s IH]; simpl; [done |].
  rewrite forallb_app, IH. simpl. rewrite andb_true_r. apply andb_comm.
Qed.

(** [trim] returns the empty string exactly on strings of white space. *)
Lemma trim_nil s : trim s = [] ↔ forallb is_white_space s = true.
Proof.
  unfold trim, trimEnd. rewrite <- trimStart_nil. split.
  - intros H. apply (f_equal (@rev code_unit)) in H.
    rewrite rev_involutive in H. simpl in H.
    apply trimStart_nil in H. rewrite forallb_rev in H.
    destruct (trimStart_head s) as [Hs|(c & t & Hs & Hc)]; [done |].
    rewrite Hs in H. simpl in H. by rewrite Hc in H.
  - by intros ->.
Qed.

(** A string that neither starts nor ends with white space is its own
    trim. *)
Lemma trim_id a z s :
  is_white_space a = false → is_white_space z = false →
  trim (a :: s ++ [z]) = a :: s ++ [z].
Proof.
  intros Ha Hz. unfold trim, trimEnd. rewrite (trimStart_keep _ _ Ha).
  assert (Hrev : rev (a :: s ++ [z]) = z :: rev (a :: s)).
  { change (a :: s ++ [z]) with ((a :: s) ++ [z]). by rewrite rev_app_distr. }
  rewrite Hrev, (trimStart_keep _ _ Hz).
  change (rev (z :: rev (a :: s))) with (rev (rev (a :: s)) ++ [z]).
  by rewrite rev_involutive.
Qed.

(* ================================================================= *)
(** ** [validateEmail] and [validatePhone] *)

Lemma email_atom_spec c :
  email_atom c = true ↔ is_white_space c = false ∧ c ≠ at_sign.
Proof.
  unfold email_atom. rewrite negb_true_iff, orb_false_iff, N.eqb_neq. done.
Qed.

(** X1: [validateEmail] accepts exactly the strings made of a non-empty
    local part, an [@], a non-empty part, a full stop and a non-empty
    last part, where no part holds white space or an [@] (the parts
    after the [@] may hold further full stops). *)
Theorem validateEmail_shape (s : jsstring) :
  validateEmail s = true ↔
  ∃ a b c : jsstring,
    s = a ++ [at_sign] ++ b ++ [full_stop] ++ c ∧
    a ≠ [] ∧ b ≠ [] ∧ c ≠ [] ∧
    (∀ x, x ∈ a ++ b ++ c → is_white_space x = false ∧ x ≠ at_sign).
Proof.
  rewrite validateEmail_spec. split.
  - intros (a & b & c & Hs & Ha & Hb & Hc & Fa & Fb & Fc).
    exists a, b, c. repeat (split; [done |]).
    intros x Hx. apply email_atom_spec.
    rewrite !elem_of_app in Hx. rewrite forallb_forall in Fa, Fb, Fc.
    destruct Hx as [Hx|[Hx|Hx]]; apply list_elem_of_In in Hx; auto.
  - intros (a & b & c & Hs & Ha & Hb & Hc & Hall).
    exists a, b, c. repeat (split; [done |]).
    repeat split; apply forallb_forall; intros x Hx;
      apply email_atom_spec, Hall; apply list_elem_of_In in Hx;
      rewrite !elem_of_app; auto.
Qed.

Lemma email_atoms_no_space s :
  forallb email_atom s = true →
  forallb (λ c, negb (is_white_space c)) s = true.
Proof.
  rewrite !forallb_forall. intros H c Hc.
  apply H, email_atom_spec in Hc as [-> _]. done.
Qed.

Lemma email_atoms_no_at s :
  forallb email_atom s = true → List.filter (N.eqb at_sign) s = [].
Proof.
  induction s as [|c s IH]; [done |]. intros H.
  cbn [forallb] in H. apply andb_true_iff in H as [Hc Hs].
  apply email_atom_spec in Hc as [_ Hc]. cbn [List.filter].
  rewrite (proj2 (N.eqb_neq at_sign c)) by congruence. by apply IH.
Qed.

Lemma nonempty_last (s : jsstring) :
  s ≠ [] → ∃ s' z, s = s' ++ [z].
Proof.
  intros H. destruct (exists_last H) as (s' & z & ->). eauto.
Qed.

Lemma validateEmail_facts s :
  validateEmail s = true →
  forallb (λ c, negb (is_white_space c)) s = true ∧
  length (List.filter (N.eqb at_sign) s) = 1 ∧
  trim s = s ∧ 5 ≤ length s.
Proof.
  intros (a & b & c & -> & Ha & Hb & Hc & Fa & Fb & Fc)%validateEmail_spec.
  split; [| split; [| split]].
  - rewrite !forallb_app.
    rewrite (email_atoms_no_space a Fa), (email_atoms_no_space b Fb),
      (email_atoms_no_space c Fc). reflexivity.
  - rewrite !List.filter_app, !length_app.
    pose proof (email_atoms_no_at a Fa) as Ea.
    pose proof (email_atoms_no_at b Fb) as Eb.
    pose proof (email_atoms_no_at c Fc) as Ec.
    unfold code_unit in *. rewrite Ea, Eb, Ec. reflexivity.
  - destruct a as [|a0 a]; [done |].
    destruct (nonempty_last c Hc) as (c' & z & ->).
    simpl in Fa. apply andb_true_iff in Fa as [Fa0 _].
    rewrite forallb_app in Fc. apply andb_true_iff in Fc as [_ Fz].
    simpl in Fz. rewrite andb_true_r in Fz.
    apply email_atom_spec in Fa0 as [Fa0 _].
    apply email_atom_spec in Fz as [Fz _].
    replace ((a0 :: a) ++ [at_sign] ++ b ++ [full_stop] ++ c' ++ [z])
      with (a0 :: (a ++ [at_sign] ++ b ++ [full_stop] ++ c') ++ [z])
      by (by simplify_list_eq).
    by apply trim_id.
  - rewrite !length_app. simpl.
    destruct a; [done |]. destruct b; [done |]. destruct c; [done |].
    simpl. lia.
Qed.

Lemma validateEmail_not_blank s : validateEmail s = true → trim s ≠ [].
Proof.
  intros H. destruct (validateEmail_facts s H) as (_ & _ & H3 & H4).
  rewrite H3. intros ->. simpl in H4. lia.
Qed.

(** X2: a string that [validateEmail] accepts holds no white space,
    holds exactly one [@], has at least five characters and is left
    unchanged by [trim]; so an accepted email is never blank. *)
Theorem validateEmail_accepted (s : jsstring) :
  validateEmail s = true →
  forallb (λ c, negb (is_white_space c)) s = true ∧
  length (List.filter (N.eqb at_sign) s) = 1 ∧
  5 ≤ length s ∧
  trim s = s ∧ trim s ≠ [].
Proof.
  intros H. destruct (validateEmail_facts s H) as (H1 & H2 & H3 & H4).
  repeat (split; [done |]). by apply validateEmail_not_blank.
Qed.

Lemma validateEmail_accepted_witness :
  forallb (λ c, negb (is_white_space c)) (str "jo.doe@mail.x.com") = true ∧
  length (List.filter (N.eqb at_sign) (str "jo.doe@mail.x.com")) = 1 ∧
  5 ≤ length (str "jo.doe@mail.x.com") ∧
  trim (str "jo.doe@mail.x.com") = str "jo.doe@mail.x.com" ∧
  trim (str "jo.doe@mail.x.com") ≠ [].
Proof.
  apply (validateEmail_accepted (str "jo.doe@mail.x.com")). reflexivity.
Defined.

(** X3: [validatePhone] accepts exactly the strings of at least ten
    characters, each a digit, a white-space character, a hyphen, a plus
    sign or a parenthesis; nothing is trimmed and digits are not
    counted. *)
Theorem validatePhone_shape (s : jsstring) :
  validatePhone s = true ↔
  10 ≤ length s ∧
  ∀ c, c ∈ s →
    is_digit c = true ∨ is_white_space c = true ∨
    c = hyphen ∨ c = plus_sign ∨ c = left_paren ∨ c = right_paren.
Proof.
  rewrite validatePhone_spec, forallb_forall.
  assert (Hc : ∀ c, phone_char c = true ↔
                    is_digit c = true ∨ is_white_space c = true ∨
                    c = hyphen ∨ c = plus_sign ∨ c = left_paren ∨
                    c = right_paren).
  { intros c. unfold phone_char. rewrite !orb_true_iff, !N.eqb_eq. tauto. }
  split; intros [Hlen H]; (split; [done |]); intros c Hin.
  - apply Hc, H. by apply list_elem_of_In.
  - apply Hc, H. by apply list_elem_of_In.
Qed.

(* ================================================================= *)
(** ** [validateForm] against [isFormValid] *)

Lemma validateForm_accepts st :
  (validateForm st).2 = true ↔
  2 ≤ length (trim (name (formData st))) ∧
  validateEmail (email (formData st)) = true ∧
  validatePhone (phone (formData st)) = true ∧
  trim (phone (formData st)) ≠ [].
Proof.
  rewrite validateForm_result, newErrors_empty, check_name_None,
    check_email_None, check_phone_None.
  split.
  - tauto.
  - intros (Hn & He & Hp & Hp'). repeat split; try done.
    by apply validateEmail_not_blank.
Qed.

(** X4: right after [validateForm] has stored its error map, the submit
    button's own test agrees with it: [isFormValid] is truthy exactly
    when [validateForm] returned [true]. *)
Theorem validateForm_then_isFormValid (st : AppState) :
  truthy (isFormValid (validateForm st).1) = (validateForm st).2.
Proof.
  destruct (validateForm st).2 eqn:Hv.
  - apply isFormValid_truthy.
    pose proof (proj1 (validateForm_result st) Hv) as He.
    apply validateForm_accepts in Hv as (Hn & Hem & Hp & _).
    unfold name_nonblank, email_passes, phone_passes, no_error_keys.
    simpl. repeat split; try done.
    + intros Hnil. rewrite Hnil in Hn. simpl in Hn. lia.
    + intros k. by rewrite He, lookup_empty.
  - destruct (truthy (isFormValid (validateForm st).1)) eqn:Ht; [| done].
    apply isFormValid_truthy in Ht as (_ & _ & _ & Hnone).
    assert (He : newErrors (formData st) = ∅).
    { apply map_eq. intros k. rewrite lookup_empty. apply (Hnone k). }
    apply validateForm_result in He. congruence.
Qed.

(** X5: when the button is enabled, a click is still rejected by
    [validateForm] in exactly two cases: the trimmed name has a single
    character, or the phone consists of white space only (ten or more
    such characters pass [validatePhone]). *)
Theorem enabled_click_rejected (st : AppState) :
  truthy (isFormValid st) = true →
  ((validateForm st).2 = false ↔
   length (trim (name (formData st))) = 1 ∨
   forallb is_white_space (phone (formData st)) = true).
Proof.
  intros (Hn & He & Hp & _)%isFormValid_truthy.
  unfold name_nonblank, email_passes, phone_passes in *.
  rewrite <- trim_nil, <- not_true_iff_false, validateForm_accepts.
  destruct (trim (name (formData st))) as [|c [|c' t]] eqn:Ht; [done | |].
  - simpl. split; [by left |]. intros _ [H _]. lia.
  - simpl. split.
    + intros H. right.
      destruct (trim (phone (formData st))) as [|p t'] eqn:Hph; [done |].
      exfalso. apply H. repeat split; try done. lia.
    + intros [H|H] (_ & _ & _ & Hne); [discriminate | done].
Qed.

Lemma enabled_click_rejected_witness :
  (validateForm (form_state (draft "Jo" "jo@x.com" "           " "") ∅)).2
    = false ↔
  length (trim (str "Jo")) = 1 ∨
  forallb is_white_space (str "           ") = true.
Proof.
  apply (enabled_click_rejected
           (form_state (draft "Jo" "jo@x.com" "           " "") ∅)).
  reflexivity.
Defined.

(* ================================================================= *)
(** ** [handleBlur] *)

Lemma setErrors_same st : setErrors (errors st) st = st.
Proof. by destruct st. Qed.

Lemma lookup_update_error k k' m (e : gmap string jsstring) :
  update_error k m e !! k' = if decide (k = k') then m else e !! k'.
Proof.
  unfold update_error. destruct m as [s|].
  - rewrite lookup_insert. by destruct (decide (k = k')).
  - rewrite lookup_delete. by destruct (decide (k = k')).
Qed.

Lemma handleBlur_field f st :
  f ≠ InMessage →
  handleBlur (key f) st =
  setErrors (update_error (key f) (check_field f (formData st)) (errors st)) st.
Proof. intros Hf. by destruct f. Qed.

(** Membership, or not, of a given name in a given list of names. *)
Ltac field_mem :=
  first
    [ apply list_elem_of_In; simpl; tauto
    | let H := fresh in
      intros H; apply list_elem_of_In in H; simpl in H;
      intuition discriminate ].

Lemma handleBlur_other field st :
  field ∉ ["name"; "email"; "phone"] → handleBlur field st = st.
Proof.
  intros H. unfold handleBlur.
  rewrite !decide_False; [apply setErrors_same | | |];
    intros ->; apply H; field_mem.
Qed.

Lemma key_inj f g : key f = key g → f = g.
Proof. by destruct f, g. Qed.

(** X6: [handleBlur] on the name, email or phone box re-runs that
    field's rule and nothing else: afterwards the field's entry is the
    rule's message, or absent when the field passes; every other entry of
    the error map, the draft and the rest of the state are untouched.  On
    any other field name, the message box included, it changes
    nothing. *)
Theorem handleBlur_effect (f : input_name) (st : AppState) :
  let st' := handleBlur (key f) st in
  formData st' = formData st ∧ contacts st' = contacts st ∧
  loading st' = loading st ∧ submitting st' = submitting st ∧
  showSuccess st' = showSuccess st ∧
  (f ≠ InMessage → errors st' !! key f = check_field f (formData st)) ∧
  (∀ k, k ≠ key f → errors st' !! k = errors st !! k) ∧
  (∀ field, field ∉ ["name"; "email"; "phone"] → handleBlur field st = st).
Proof.
  cbv zeta. repeat apply conj; try reflexivity.
  - intros Hf. rewrite (handleBlur_field f st Hf). simpl.
    rewrite lookup_update_error. by rewrite decide_True.
  - intros k Hk.
    assert (Hf : f = InMessage ∨ f ≠ InMessage)
      by (destruct f; (by left) || (by right)).
    destruct Hf as [->|Hf].
    + by rewrite handleBlur_other by field_mem.
    + rewrite (handleBlur_field f st Hf). simpl.
      rewrite lookup_update_error. by rewrite decide_False.
  - intros field H. by apply handleBlur_other.
Qed.

(** X7: leaving the name, email and phone boxes, in any order, builds
    the very error map [validateForm] builds, provided the map held no
    key besides these three to begin with. *)
Theorem blur_all_is_validateForm (f g h : input_name) (st : AppState) :
  f ≠ InMessage → g ≠ InMessage → h ≠ InMessage →
  f ≠ g → g ≠ h → f ≠ h →
  (∀ k, is_Some (errors st !! k) → k ∈ ["name"; "email"; "phone"]) →
  errors (handleBlur (key h) (handleBlur (key g) (handleBlur (key f) st))) =
  errors (validateForm st).1.
Proof.
  intros Hf Hg Hh Hfg Hgh Hfh Hkeys.
  rewrite (handleBlur_field h _ Hh), (handleBlur_field g _ Hg),
    (handleBlur_field f _ Hf). simpl.
  apply map_eq. intros k. rewrite !lookup_update_error.
  assert (Hnone : k ∉ ["name"; "email"; "phone"] →
                  errors st !! k = None ∧ newErrors (formData st) !! k = None).
  { intros Hk. split.
    - apply eq_None_not_Some. intros Hs. by apply Hk, Hkeys.
    - apply newErrors_other; intros ->; apply Hk; field_mem. }
  destruct (decide (k = "name")) as [->|Hk1];
    [| destruct (decide (k = "email")) as [->|Hk2];
       [| destruct (decide (k = "phone")) as [->|Hk3]]].
  - rewrite newErrors_name. by destruct f, g, h.
  - rewrite newErrors_email. by destruct f, g, h.
  - rewrite newErrors_phone. by destruct f, g, h.
  - destruct Hnone as [He Hn].
    { intros Hin. apply list_elem_of_In in Hin. simpl in Hin.
      intuition congruence. }
    rewrite Hn.
    rewrite !decide_False; [done | | |]; intros <-; by destruct f, g, h.
Qed.

Lemma blur_all_is_validateForm_witness :
  errors (handleBlur (key InName)
            (handleBlur (key InEmail)
               (handleBlur (key InPhone) stale_state.1))) =
  errors (validateForm stale_state.1).1.
Proof.
  apply (blur_all_is_validateForm InPhone InEmail InName stale_state.1);
    try discriminate.
  intros k [m Hk]. destruct (decide (k = "name")) as [->|Hne].
  - field_mem.
  - exfalso. revert Hk. change (errors stale_state.1 !! k ≠ Some m).
    change (errors stale_state.1) with (<["name" := []]> (∅ : obj)).
    by rewrite lookup_insert_ne, lookup_empty.
Defined.

(* ================================================================= *)
(** ** [handleChange] *)

Lemma handleChange_unfold f v st :
  handleChange f v st =
  {| formData := set_field f v (formData st);
     errors := if prop_truthy (errors st !! key f)
               then <[key f := []]> (errors st) else errors st;
     contacts := contacts st; loading := loading st;
     submitting := submitting st; showSuccess := showSuccess st |}.
Proof.
  unfold handleChange. by destruct (prop_truthy (errors st !! key f)).
Qed.

Lemma set_field_twice f v v' fd :
  set_field f v' (set_field f v fd) = set_field f v' fd.
Proof. by destruct f. Qed.

Lemma set_field_swap f g v u fd :
  f ≠ g →
  set_field f v (set_field g u fd) = set_field g u (set_field f v fd).
Proof. by destruct f, g. Qed.

(** X8: typing twice into the same box is the same as typing the second
    value alone: the draft takes the last value, and a message cleared
    by the first keystroke stays cleared (its key bound to the empty
    string). *)
Theorem handleChange_last_wins (f : input_name) (v v' : jsstring)
    (st : AppState) :
  handleChange f v' (handleChange f v st) = handleChange f v' st.
Proof.
  rewrite !handleChange_unfold. simpl. rewrite set_field_twice.
  f_equal. destruct (prop_truthy (errors st !! key f)) eqn:Ht.
  - by rewrite lookup_insert_eq.
  - by rewrite Ht.
Qed.

(** X9: typing into two different boxes gives the same state in either
    order. *)
Theorem handleChange_commute (f g : input_name) (v u : jsstring)
    (st : AppState) :
  f ≠ g →
  handleChange f v (handleChange g u st) =
  handleChange g u (handleChange f v st).
Proof.
  intros Hfg. assert (Hk : key g ≠ key f).
  { intros H. by apply key_inj in H. }
  rewrite !handleChange_unfold. simpl.
  rewrite (set_field_swap f g) by done. f_equal.
  destruct (prop_truthy (errors st !! key f)) eqn:Hf,
           (prop_truthy (errors st !! key g)) eqn:Hg;
    rewrite ?lookup_insert_ne, ?Hf, ?Hg by done; try done.
  by apply insert_insert_ne.
Qed.

Lemma handleChange_commute_witness :
  handleChange InName (str "Jo")
    (handleChange InPhone (str "1234567890") stale_state.1) =
  handleChange InPhone (str "1234567890")
    (handleChange InName (str "Jo") stale_state.1).
Proof.
  apply (handleChange_commute InName InPhone). discriminate.
Defined.

(** X10: after a keystroke in a box no message is shown under that box,
    whatever was shown before, and the messages under the other boxes
    are the ones shown before. *)
Theorem handleChange_hides_message (f : input_name) (v : jsstring)
    (st : AppState) :
  error_text f (handleChange f v st) = None ∧
  ∀ g, g ≠ f → error_text g (handleChange f v st) = error_text g st.
Proof.
  rewrite handleChange_unfold. split.
  - unfold error_text. simpl.
    destruct (prop_truthy (errors st !! key f)) eqn:Ht.
    + rewrite lookup_insert_eq. by destruct f.
    + destruct (errors st !! key f) as [m|]; simpl in Ht;
        [rewrite Ht |]; by destruct f.
  - intros g Hg. assert (Hk : key f ≠ key g).
    { intros H. by apply key_inj in H. }
    unfold error_text. simpl.
    destruct (prop_truthy (errors st !! key f));
      by rewrite ?lookup_insert_ne by done.
Qed.

(** X11: the message box has no rule: typing into it changes neither
    what [validateForm] builds and returns nor whether the submit button
    is enabled. *)
Theorem message_never_affects_validity (v : jsstring) (st : AppState) :
  let st' := handleChange InMessage v st in
  errors (validateForm st').1 = errors (validateForm st).1 ∧
  (validateForm st').2 = (validateForm st).2 ∧
  truthy (isFormValid st') = truthy (isFormValid st) ∧
  submit_disabled st' = submit_disabled st.
Proof.
  cbv zeta.
  assert (Hfd : newErrors (formData (handleChange InMessage v st)) =
                newErrors (formData st)).
  { by rewrite handleChange_formData. }
  assert (Hv : truthy (isFormValid (handleChange InMessage v st)) =
               truthy (isFormValid st)).
  { apply eq_true_iff_eq. rewrite !isFormValid_truthy.
    unfold name_nonblank, email_passes, phone_passes, no_error_keys.
    rewrite handleChange_formData. simpl.
    assert (Hkeys : (∀ k, errors (handleChange InMessage v st) !! k = None) ↔
                    (∀ k, errors st !! k = None)).
    { split; intros H k; apply eq_None_not_Some; intros Hs;
        [apply (handleChange_keys InMessage v) in Hs | apply handleChange_keys in Hs];
        rewrite H in Hs; by destruct Hs. }
    tauto. }
  split; [| split; [| split]].
  - simpl. exact Hfd.
  - unfold validateForm. simpl. by rewrite Hfd.
  - exact Hv.
  - unfold submit_disabled. rewrite Hv. f_equal.
    by rewrite handleChange_unfold.
Qed.

(* ================================================================= *)
(** ** [handleSubmit] on an accepted draft *)

Lemma handleSubmit_accepted_eq now iso st b :
  (validateForm st).2 = true →
  handleSubmit now iso (st, b) =
  ({| formData := formData_init; errors := ∅;
      contacts := API.newContact now iso (formData_obj (formData st))
                  :: contacts st;
      loading := loading st; submitting := false; showSuccess := true |},
   {| api_contacts := api_contacts b ++
        [API.newContact now iso (formData_obj (formData st))];
      api_calls := api_calls b ++ [CallCreate (formData_obj (formData st))] |}).
Proof.
  unfold handleSubmit. destruct (validateForm st) as [st1 ok] eqn:Hvf.
  simpl. intros ->. simpl.
  unfold validateForm in Hvf. inversion Hvf; subst. reflexivity.
Qed.

(* ================================================================= *)
(** ** The displayed list follows the store, call by call *)

Lemma filter_rev (P : obj → Prop) `{∀ x, Decision (P x)} (l : list obj) :
  filter P (rev l) = rev (filter P l).
Proof.
  induction l as [|x l IH]; [done |].
  simpl. rewrite filter_app, IH, !filter_cons.
  destruct (decide (P x)); simpl; [done |]. by rewrite app_nil_r.
Qed.

Lemma handle_frame e sb :
  is_leave e = true ∨ (∃ f v, e = Type_in f v) ∨ e = SuccessTimeout →
  contacts (handle e sb).1 = contacts sb.1 ∧
  loading (handle e sb).1 = loading sb.1 ∧
  submitting (handle e sb).1 = submitting sb.1 ∧
  (handle e sb).2 = sb.2.
Proof.
  intros [He|[(f & v & ->)| ->]].
  - destruct e; try discriminate. done.
  - simpl. by rewrite handleChange_unfold.
  - done.
Qed.

Lemma ui_synchronised sb :
  ui_reachable sb →
  contacts sb.1 = rev (api_contacts sb.2) ∧
  loading sb.1 = false ∧ submitting sb.1 = false.
Proof.
  induction 1 as [|e [st b] Hsb (IHc & IHl & IHs) Hoff]; [done |].
  simpl in IHc, IHl, IHs.
  destruct e as [f v|f|now iso|id|].
  - destruct (handle_frame (Type_in f v) (st, b)) as (-> & -> & -> & ->);
      [right; left; eauto |]. done.
  - destruct (handle_frame (Leave f) (st, b)) as (-> & -> & -> & ->);
      [by left |]. done.
  - change (handle (ClickSubmit now iso) (st, b))
      with (handleSubmit now iso (st, b)).
    destruct (validateForm st).2 eqn:Hv.
    + rewrite (handleSubmit_accepted_eq _ _ _ _ Hv). simpl.
      rewrite rev_app_distr. simpl. by rewrite IHc.
    + rewrite (handleSubmit_rejected_eq _ _ _ _ Hv). done.
  - simpl. rewrite IHc, <- filter_rev. done.
  - done.
Qed.

Lemma session_reachable : ui_reachable session_result.
Proof.
  unfold session_result, session_sample. cbn [handle_all].
  repeat (apply reach_event;
          [| cbn [offered];
             first [ exact I | discriminate
                   | vm_compute; reflexivity | idtac ]]).
  - constructor.
  - exists (API.newContact 1700000000000 iso_sample jo). split.
    + apply list_elem_of_In. vm_compute. right. left. reflexivity.
    + vm_compute. reflexivity.
Qed.

(* ================================================================= *)
(** ** What the form lets into the store *)

Lemma formData_obj_lookup fd k :
  formData_obj fd !! k =
  if decide (k = "message") then Some (message fd)
  else if decide (k = "phone") then Some (phone fd)
  else if decide (k = "email") then Some (email fd)
  else if decide (k = "name") then Some (name fd)
  else None.
Proof.
  unfold formData_obj.
  repeat (rewrite lookup_insert; case_decide; subst;
          [by rewrite ?decide_True, ?decide_False by done |]).
  rewrite lookup_empty. by rewrite !decide_False by done.
Qed.

Lemma newContact_validated now iso fd :
  2 ≤ length (trim (name fd)) → validateEmail (email fd) = true →
  validatePhone (phone fd) = true → trim (phone fd) ≠ [] →
  validated_contact (API.newContact now iso (formData_obj fd)).
Proof.
  intros Hn He Hp Hp'.
  exists (name fd), (email fd), (phone fd), (message fd), iso, now.
  assert (Hl : ∀ k, API.newContact now iso (formData_obj fd) !! k =
    if decide (k = "createdAt") then Some iso
    else if decide (k = "message") then Some (message fd)
    else if decide (k = "phone") then Some (phone fd)
    else if decide (k = "email") then Some (email fd)
    else if decide (k = "name") then Some (name fd)
    else if decide (k = "_id") then Some (Number_toString now)
    else None).
  { intros k. rewrite newContact_lookup, formData_obj_lookup.
    repeat (case_decide; [done |]). done. }
  repeat (split; [by rewrite Hl |]).
  split; [| done].
  intros k. rewrite Hl. unfold contact_keys. split.
  - repeat (case_decide; [subst; intros _; field_mem |]).
    by intros [? ?].
  - intros Hk. apply list_elem_of_In in Hk. simpl in Hk.
    destruct Hk as [<-|[<-|[<-|[<-|[<-|[<-|[]]]]]]]; simpl; eauto.
Qed.

Lemma validated_store sb :
  ui_reachable sb → Forall validated_contact (api_contacts sb.2).
Proof.
  induction 1 as [|e [st b] Hsb IH Hoff]; [constructor |].
  simpl in IH. destruct e as [f v|f|now iso|id|]; try done.
  - change (handle (ClickSubmit now iso) (st, b))
      with (handleSubmit now iso (st, b)).
    destruct (validateForm st).2 eqn:Hv.
    + rewrite (handleSubmit_accepted_eq _ _ _ _ Hv). simpl.
      apply Forall_app. split; [done |]. constructor; [| constructor].
      apply validateForm_accepts in Hv as (? & ? & ? & ?).
      by apply newContact_validated.
    + by rewrite (handleSubmit_rejected_eq _ _ _ _ Hv).
  - simpl. apply Forall_forall. intros c Hc.
    apply list_elem_of_filter in Hc as [_ Hc].
    by apply (proj1 (Forall_forall _ _) IH).
Qed.



(* ================================================================= *)
(** ** What the error map can hold *)

Lemma check_field_messages f fd m :
  check_field f fd = Some m → m ∈ messages.
Proof.
  unfold messages.
  destruct f; simpl; unfold check_name, check_email, check_phone;
    repeat (match goal with
            | |- context [if ?b then _ else _] => destruct b
            end);
    intros [= <-]; field_mem.
Qed.

Lemma newErrors_entry fd k m :
  newErrors fd !! k = Some m →
  k ∈ ["name"; "email"; "phone"] ∧ m ∈ messages.
Proof.
  destruct (decide (k = "name")) as [->|H1];
    [| destruct (decide (k = "email")) as [->|H2];
       [| destruct (decide (k = "phone")) as [->|H3]]].
  - rewrite newErrors_name. intros H. split; [field_mem |].
    by apply (check_field_messages InName fd).
  - rewrite newErrors_email. intros H. split; [field_mem |].
    by apply (check_field_messages InEmail fd).
  - rewrite newErrors_phone. intros H. split; [field_mem |].
    by apply (check_field_messages InPhone fd).
  - by rewrite newErrors_other.
Qed.

Lemma key_of_field f : f ≠ InMessage → key f ∈ ["name"; "email"; "phone"].
Proof. destruct f; intros H; field_mem. Qed.



(* ================================================================= *)
(** ** How the store's operations compose *)

Lemma delete_keeps_all id (s : list obj) :
  (∀ x : obj, x ∈ s → x !! "_id" ≠ Some id) →
  filter (λ c : obj, c !! "_id" ≠ Some id) s = s.
Proof.
  induction s as [|x s IH]; intros H; [done |].
  rewrite filter_cons_True by (apply H; left).
  f_equal. apply IH. intros y Hy. apply H. by right.
Qed.

(** X16: deleting by the identifier of a contact just created undoes
    the create when no older entry has that identifier: the store is
    what it was.  In general it leaves the store as a delete without the
    create would have. *)
Theorem create_then_delete (now : Z) (iso : jsstring) (d : obj)
    (s : list obj) :
  d !! "_id" = None →
  (∀ x : obj, x ∈ s → x !! "_id" ≠ Some (Number_toString now)) →
  let r := API.createContact now iso d s in
  ∃ c : obj,
    data r.2 = OneContact c ∧ c !! "_id" = Some (Number_toString now) ∧
    (API.deleteContact (Number_toString now) r.1).1 = s ∧
    ∀ s' : list obj,
      (API.deleteContact (Number_toString now)
         (API.createContact now iso d s').1).1 =
      (API.deleteContact (Number_toString now) s').1.
Proof.
  intros Hd Hfresh. cbv zeta. exists (API.newContact now iso d).
  pose proof (newContact_id now iso d Hd) as Hid.
  assert (Hgen : ∀ s' : list obj,
    (API.deleteContact (Number_toString now)
       (API.createContact now iso d s').1).1 =
    (API.deleteContact (Number_toString now) s').1).
  { intros s'. simpl. rewrite filter_app.
    rewrite (filter_cons_False _ (API.newContact now iso d)) by (by intros H).
    by rewrite filter_nil, app_nil_r. }
  split; [done |]. split; [done |]. split; [| done].
  rewrite Hgen. simpl. by apply delete_keeps_all.
Qed.

Lemma create_then_delete_witness :
  let s := [API.newContact 1700000000000 iso_sample jo] in
  let r := API.createContact 1700000000600 iso_sample al s in
  ∃ c : obj,
    data r.2 = OneContact c ∧
    c !! "_id" = Some (Number_toString 1700000000600) ∧
    (API.deleteContact (Number_toString 1700000000600) r.1).1 = s ∧
    ∀ s' : list obj,
      (API.deleteContact (Number_toString 1700000000600)
         (API.createContact 1700000000600 iso_sample al s').1).1 =
      (API.deleteContact (Number_toString 1700000000600) s').1.
Proof.
  apply (create_then_delete 1700000000600 iso_sample al
           [API.newContact 1700000000000 iso_sample jo]).
  - reflexivity.
  - intros x Hx. apply list_elem_of_singleton in Hx. subst x.
    vm_compute. discriminate.
Defined.

(** X17: deletes commute, never lengthen the store, and remove exactly
    as many entries as carry the identifier. *)
Theorem deleteContact_commute (a b : jsstring) (s : list obj) :
  (API.deleteContact a (API.deleteContact b s).1).1 =
  (API.deleteContact b (API.deleteContact a s).1).1 ∧
  length (API.deleteContact a s).1 +
    length (filter (λ c : obj, c !! "_id" = Some a) s) = length s.
Proof.
  split; simpl.
  - induction s as [|x s IH]; [done |].
    rewrite !filter_cons.
    destruct (decide (x !! "_id" ≠ Some b)), (decide (x !! "_id" ≠ Some a));
      rewrite ?filter_cons_True, ?filter_cons_False by done;
      by rewrite ?IH.
  - induction s as [|x s IH]; [done |].
    rewrite !filter_cons.
    destruct (decide (x !! "_id" ≠ Some a)) as [Hne|He].
    + rewrite decide_False by done. simpl. lia.
    + rewrite decide_True by (by apply dec_stable). simpl. lia.
Qed.

(** X18: a delete and a create of a contact with another identifier can
    be swapped. *)
Theorem delete_create_commute (id : jsstring) (now : Z) (iso : jsstring)
    (d : obj) (s : list obj) :
  API.newContact now iso d !! "_id" ≠ Some id →
  (API.deleteContact id (API.createContact now iso d s).1).1 =
  (API.createContact now iso d (API.deleteContact id s).1).1.
Proof.
  intros Hne. simpl. rewrite filter_app.
  by rewrite (filter_cons_True _ (API.newContact now iso d)) by done.
Qed.

Lemma delete_create_commute_witness :
  (API.deleteContact (str "1700000000000")
     (API.createContact 1700000000600 iso_sample al
        [API.newContact 1700000000000 iso_sample jo]).1).1 =
  (API.createContact 1700000000600 iso_sample al
     (API.deleteContact (str "1700000000000")
        [API.newContact 1700000000000 iso_sample jo]).1).1.
Proof.
  apply (delete_create_commute (str "1700000000000") 1700000000600
           iso_sample al [API.newContact 1700000000000 iso_sample jo]).
  vm_compute. discriminate.
Defined.

(* ================================================================= *)
(** ** [handleDelete] *)

(** X19: [handleDelete(id)] sends one [deleteContact] call; afterwards
    neither the displayed list nor the store holds an entry with that
    [_id], the entries with another [_id] are all still there, and the
    draft and the error map are untouched. *)
Theorem handleDelete_effect (id : jsstring) (sb : AppState * Backend) :
  let sb' := handleDelete id sb in
  api_calls sb'.2 = api_calls sb.2 ++ [CallDelete id] ∧
  (∀ c : obj, c ∈ contacts sb'.1 ↔ c ∈ contacts sb.1 ∧ c !! "_id" ≠ Some id) ∧
  (∀ c : obj, c ∈ api_contacts sb'.2 ↔
              c ∈ api_contacts sb.2 ∧ c !! "_id" ≠ Some id) ∧
  formData sb'.1 = formData sb.1 ∧ errors sb'.1 = errors sb.1 ∧
  contacts (handleDelete id sb').1 = contacts sb'.1 ∧
  api_contacts (handleDelete id sb').2 = api_contacts sb'.2.
Proof.
  destruct sb as [st b]. cbv zeta. simpl.
  repeat apply conj; try reflexivity.
  - intros c. rewrite list_elem_of_filter. tauto.
  - intros c. rewrite list_elem_of_filter. tauto.
  - apply delete_keeps_all. intros x Hx.
    by apply list_elem_of_filter in Hx as [? _].
  - apply delete_keeps_all. intros x Hx.
    by apply list_elem_of_filter in Hx as [? _].
Qed.

(* ================================================================= *)
(** * The component with its calls in flight *)

Lemma pop_due_perm {T : Type} (ts : list (Z * T)) x rest :
  pop_due ts = Some (x, rest) → ts ≡ₚ x :: rest.
Proof.
  revert x rest. induction ts as [|y ts IH]; intros x rest H; simpl in H.
  - discriminate.
  - destruct (pop_due ts) as [[z r]|] eqn:Hp.
    + destruct (y.1 <=? z.1)%Z.
      * by inversion H; subst.
      * inversion H; subst. rewrite (IH _ _ eq_refl). apply Permutation_swap.
    + inversion H; subst. destruct ts; [done |].
      simpl in Hp. destruct (pop_due ts) as [[? ?]|];
        [destruct (_ <=? _)%Z |]; discriminate.
Qed.

(** The ways one event changes the component. *)
Inductive app_change (w : AppWorld) : AppWorld → Prop :=
| change_type f v :
    app_change w (with_ui (handleChange f v (app_ui w)) w)
| change_leave f :
    f ≠ InMessage →
    app_change w (with_ui (handleBlur (key f) (app_ui w)) w)
| change_submit :
    submit_disabled (app_ui w) = false →
    app_change w (handleSubmit_click w)
| change_delete id :
    Some id ∈ ids (contacts (app_ui w)) →
    app_change w (handleDelete_click id w)
| change_time w' :
    app_ui w' = app_ui w → app_backend w' = app_backend w →
    app_timers w' = app_timers w →
    app_change w w'
| change_fire iso due t rest :
    pop_due (app_timers w) = Some ((due, t), rest) →
    (due ≤ app_clock w)%Z →
    app_change w (app_resume t iso w rest).

Lemma app_step_change e w w' : app_step e w = Some w' → app_change w w'.
Proof.
  destruct e as [[f v|f| |id]|dt|dz|iso]; simpl.
  - intros [= <-]. apply change_type.
  - destruct f; intros [= <-];
      [apply (change_leave w InName) | apply (change_leave w InEmail)
      | apply (change_leave w InPhone)]; discriminate.
  - destruct (submit_disabled (app_ui w)) eqn:Hd; intros [= <-].
    by apply change_submit.
  - destruct (decide (Some id ∈ ids (contacts (app_ui w))));
      intros [= <-]. by apply change_delete.
  - destruct (0 <=? dt)%Z; intros [= <-]. by apply change_time.
  - intros [= <-]. by apply change_time.
  - destruct (pop_due (app_timers w)) as [[[due t] rest]|] eqn:Hpop;
      [| discriminate].
    destruct (due <=? app_clock w)%Z eqn:Hdue; intros [= <-].
    apply (change_fire w iso due t rest); [done | lia].
Qed.

(** What holds at mount and survives every change holds in every state
    the component reaches. *)
Lemma app_reachable_ind (P : AppWorld → Prop) :
  (∀ t0, P (app_init t0)) →
  (∀ w w', P w → app_change w w' → P w') →
  ∀ w, app_reachable w → P w.
Proof.
  intros Hinit Hstep w (t0 & evs & Hrun).
  revert Hrun. generalize (Hinit t0). generalize (app_init t0).
  induction evs as [|e evs IH]; intros w0 Hw0 Hrun; simpl in Hrun.
  - by inversion Hrun; subst.
  - destruct (app_step e w0) as [w1|] eqn:He; [| discriminate].
    apply (IH w1); [| done].
    apply (Hstep w0); [done |]. by apply (app_step_change e).
Qed.

Lemma handleSubmit_click_ui w :
  app_ui (handleSubmit_click w) =
  if (validateForm (app_ui w)).2
  then setSubmitting true (validateForm (app_ui w)).1
  else (validateForm (app_ui w)).1.
Proof.
  unfold handleSubmit_click.
  destruct (validateForm (app_ui w)) as [st1 ok]. by destruct ok.
Qed.

Lemma handleSubmit_click_store w :
  api_contacts (app_backend (handleSubmit_click w)) =
  api_contacts (app_backend w).
Proof.
  unfold handleSubmit_click.
  destruct (validateForm (app_ui w)) as [st1 ok]. by destruct ok.
Qed.

Lemma handleSubmit_click_timers w :
  app_timers (handleSubmit_click w) =
  if (validateForm (app_ui w)).2
  then app_timers w ++
         [((app_clock w + 500)%Z,
           UiSubmit (formData_obj (formData (app_ui w))))]
  else app_timers w.
Proof.
  unfold handleSubmit_click.
  destruct (validateForm (app_ui w)) as [st1 ok]. by destruct ok.
Qed.

(** The one-step [handleSubmit] is the click followed at once by the
    completion. *)
Lemma handleSubmit_collapses w iso rest :
  let w1 := handleSubmit_click w in
  handleSubmit (app_now w) iso (app_ui w, app_backend w) =
  if (validateForm (app_ui w)).2
  then (app_ui (handleSubmit_done (formData_obj (formData (app_ui w)))
                  iso w1 rest),
        {| api_contacts :=
             api_contacts (app_backend
               (handleSubmit_done (formData_obj (formData (app_ui w)))
                  iso w1 rest));
           api_calls := api_calls (app_backend w1) |})
  else (app_ui w1, app_backend w1).
Proof.
  cbv zeta. destruct (validateForm (app_ui w)).2 eqn:Hv.
  - rewrite (handleSubmit_accepted_eq _ _ _ _ Hv).
    unfold handleSubmit_done, handleSubmit_click, app_now.
    destruct (validateForm (app_ui w)) as [st1 ok] eqn:Hvf.
    simpl in Hv. subst ok. simpl.
    unfold validateForm in Hvf. inversion Hvf; subst. reflexivity.
  - rewrite (handleSubmit_rejected_eq _ _ _ _ Hv).
    unfold handleSubmit_click.
    destruct (validateForm (app_ui w)) as [st1 ok] eqn:Hvf.
    simpl in Hv. subst ok. simpl. by destruct (app_backend w).
Qed.

Example flight_result_store :
  ids (api_contacts (app_backend flight_result)) =
    [Some (str "1700000000500")] ∧
  contacts (app_ui flight_result) = api_contacts (app_backend flight_result) ∧
  message (formData (app_ui flight_result)) = [] ∧
  app_timers flight_result =
    [(3800%Z, UiHideSuccess); (4300%Z, UiHideSuccess)].
Proof. split; [| split; [| split]]; vm_compute; reflexivity. Qed.

Example flight_midway_pending :
  app_timers flight_midway =
    [(3800%Z, UiHideSuccess);
     (1300%Z, UiSubmit (formData_obj
                          (draft " Al " "al@x.com" "(098) 765-4321" "")));
     (1100%Z, UiDelete (str "1700000000000"))] ∧
  submitting (app_ui flight_midway) = true ∧
  ids (contacts (app_ui flight_midway)) = [Some (str "1700000000000")].
Proof. split; [| split]; vm_compute; reflexivity. Qed.

Lemma flight_result_reachable : app_reachable flight_result.
Proof.
  exists 1699999999200%Z, flight_sample. vm_compute. reflexivity.
Qed.

Lemma flight_early_reachable : app_reachable flight_early.
Proof.
  exists 1699999999200%Z, (take 8 flight_sample). vm_compute. reflexivity.
Qed.

Lemma flight_midway_reachable : app_reachable flight_midway.
Proof.
  exists 1699999999200%Z, (take 16 flight_sample). vm_compute. reflexivity.
Qed.

(* ================================================================= *)
(** ** [handleSubmit], from the click to the return of the call *)

Lemma newContact_of_form now iso fd :
  API.newContact now iso (formData_obj fd) !! "name" = Some (name fd) ∧
  API.newContact now iso (formData_obj fd) !! "email" = Some (email fd) ∧
  API.newContact now iso (formData_obj fd) !! "phone" = Some (phone fd) ∧
  API.newContact now iso (formData_obj fd) !! "message" = Some (message fd).
Proof.
  repeat split; rewrite newContact_lookup, formData_obj_lookup;
    by repeat (case_decide; [done |]).
Qed.

(** X12: when [validateForm] accepts the draft, the click sends exactly
    one [createContact] call carrying the draft as typed, sets
    [submitting] (which disables the button) and changes neither the
    store, the displayed list nor the draft.  When the call returns, in
    whatever state the component then is, the contact built from that
    draft and the clock of that moment is appended to the store and put
    at the head of the list displayed then; the form and the error map
    are emptied, the success notice is raised and [submitting] is reset;
    the emptied form leaves the button disabled. *)
Theorem handleSubmit_in_two_steps (w : AppWorld) :
  (validateForm (app_ui w)).2 = true →
  let d := formData_obj (formData (app_ui w)) in
  let w1 := handleSubmit_click w in
  (api_calls (app_backend w1) = api_calls (app_backend w) ++ [CallCreate d] ∧
   api_contacts (app_backend w1) = api_contacts (app_backend w) ∧
   app_timers w1 = app_timers w ++ [((app_clock w + 500)%Z, UiSubmit d)] ∧
   contacts (app_ui w1) = contacts (app_ui w) ∧
   formData (app_ui w1) = formData (app_ui w) ∧
   submitting (app_ui w1) = true ∧ submit_disabled (app_ui w1) = true) ∧
  ∀ (w2 : AppWorld) (iso : jsstring) (due : Z) (rest : list (Z * ui_task)),
    pop_due (app_timers w2) = Some ((due, UiSubmit d), rest) →
    (due ≤ app_clock w2)%Z →
    ∃ (w3 : AppWorld) (c : obj),
      app_step (TimerFires iso) w2 = Some w3 ∧
      c = API.newContact (app_now w2) iso d ∧
      api_contacts (app_backend w3) = api_contacts (app_backend w2) ++ [c] ∧
      api_calls (app_backend w3) = api_calls (app_backend w2) ∧
      contacts (app_ui w3) = c :: contacts (app_ui w2) ∧
      formData (app_ui w3) = formData_init ∧
      (∀ k, errors (app_ui w3) !! k = None) ∧
      showSuccess (app_ui w3) = true ∧ submitting (app_ui w3) = false ∧
      loading (app_ui w3) = loading (app_ui w2) ∧
      submit_disabled (app_ui w3) = true ∧
      c !! "name" = Some (name (formData (app_ui w))) ∧
      c !! "email" = Some (email (formData (app_ui w))) ∧
      c !! "phone" = Some (phone (formData (app_ui w))) ∧
      c !! "message" = Some (message (formData (app_ui w))).
Proof.
  intros Hv. cbv zeta. split.
  - rewrite handleSubmit_click_calls, handleSubmit_click_store,
      handleSubmit_click_timers, handleSubmit_click_ui, Hv.
    repeat (split; [reflexivity |]).
    unfold submit_disabled. simpl. apply orb_true_r.
  - intros w2 iso due rest Hpop Hdue.
    exists (handleSubmit_done (formData_obj (formData (app_ui w)))
              iso w2 rest),
           (API.newContact (app_now w2) iso
              (formData_obj (formData (app_ui w)))).
    split.
    { simpl. rewrite Hpop.
      by replace (due <=? app_clock w2)%Z with true
        by (symmetry; apply Z.leb_le; lia). }
    destruct (newContact_of_form (app_now w2) iso (formData (app_ui w)))
      as (Hn & He & Hp & Hm).
    repeat apply conj; try reflexivity; done.
Qed.

Lemma handleSubmit_in_two_steps_witness :
  let w := with_ui (form_state (draft " Jo " "jo@x.com"
                                  "+1 (555) 123-4567" "hi") ∅)
                   (app_init 1700000000000) in
  let d := formData_obj (formData (app_ui w)) in
  let w1 := handleSubmit_click w in
  (api_calls (app_backend w1) = api_calls (app_backend w) ++ [CallCreate d] ∧
   api_contacts (app_backend w1) = api_contacts (app_backend w) ∧
   app_timers w1 = app_timers w ++ [((app_clock w + 500)%Z, UiSubmit d)] ∧
   contacts (app_ui w1) = contacts (app_ui w) ∧
   formData (app_ui w1) = formData (app_ui w) ∧
   submitting (app_ui w1) = true ∧ submit_disabled (app_ui w1) = true) ∧
  ∀ (w2 : AppWorld) (iso : jsstring) (due : Z) (rest : list (Z * ui_task)),
    pop_due (app_timers w2) = Some ((due, UiSubmit d), rest) →
    (due ≤ app_clock w2)%Z →
    ∃ (w3 : AppWorld) (c : obj),
      app_step (TimerFires iso) w2 = Some w3 ∧
      c = API.newContact (app_now w2) iso d ∧
      api_contacts (app_backend w3) = api_contacts (app_backend w2) ++ [c] ∧
      api_calls (app_backend w3) = api_calls (app_backend w2) ∧
      contacts (app_ui w3) = c :: contacts (app_ui w2) ∧
      formData (app_ui w3) = formData_init ∧
      (∀ k, errors (app_ui w3) !! k = None) ∧
      showSuccess (app_ui w3) = true ∧ submitting (app_ui w3) = false ∧
      loading (app_ui w3) = loading (app_ui w2) ∧
      submit_disabled (app_ui w3) = true ∧
      c !! "name" = Some (name (formData (app_ui w))) ∧
      c !! "email" = Some (email (formData (app_ui w))) ∧
      c !! "phone" = Some (phone (formData (app_ui w))) ∧
      c !! "message" = Some (message (formData (app_ui w))).
Proof.
  apply (handleSubmit_in_two_steps
           (with_ui (form_state (draft " Jo " "jo@x.com"
                                   "+1 (555) 123-4567" "hi") ∅)
                    (app_init 1700000000000))).
  reflexivity.
Defined.

(* ================================================================= *)
(** ** The displayed list follows the store, calls in flight included *)

(** The mount fetches still pending. *)
Abbreviation fetches ts :=
  (filter (λ x : Z * ui_task, is_fetch x = true) ts).

Lemma fetch_pending_spec w :
  fetch_pending w = negb (length (fetches (app_timers w)) =? 0).
Proof.
  unfold fetch_pending. induction (app_timers w) as [|x ts IH]; [done |].
  cbn [existsb]. rewrite filter_cons. destruct (is_fetch x) eqn:Hx.
  - by rewrite decide_True.
  - rewrite decide_False by congruence. exact IH.
Qed.

Lemma handleBlur_frame k st :
  contacts (handleBlur k st) = contacts st ∧
  loading (handleBlur k st) = loading st ∧
  formData (handleBlur k st) = formData st.
Proof. done. Qed.

(** What every change keeps: the displayed list is the reversed store,
    and [loading] is set exactly while the one mount fetch is pending. *)
Definition app_sync (w : AppWorld) : Prop :=
  contacts (app_ui w) = rev (api_contacts (app_backend w)) ∧
  length (fetches (app_timers w)) = (if loading (app_ui w) then 1 else 0).

Lemma app_sync_change w w' : app_sync w → app_change w w' → app_sync w'.
Proof.
  intros [Hc Hl] Hch. unfold app_sync.
  destruct Hch as [f v|f Hf|Hd|id Hid|w' Hui Hb Ht|iso due t rest Hpop Hdue].
  - simpl. by rewrite handleChange_unfold.
  - done.
  - rewrite handleSubmit_click_ui, handleSubmit_click_store,
      handleSubmit_click_timers.
    destruct (validateForm (app_ui w)).2; simpl; [| done].
    split; [done |]. rewrite filter_app, length_app.
    rewrite filter_cons_False by (by compute). simpl. lia.
  - simpl. split; [done |]. rewrite filter_app, length_app.
    rewrite filter_cons_False by (by compute). simpl. lia.
  - by rewrite Hui, Hb, Ht.
  - apply pop_due_perm in Hpop.
    assert (Hcount : length (fetches (app_timers w)) =
                     length (fetches ((due, t) :: rest)))
      by (by rewrite Hpop).
    rewrite Hl in Hcount.
    destruct t as [|d|id|].
    + rewrite filter_cons_True in Hcount by (by compute).
      simpl in Hcount. simpl. split; [done |].
      destruct (loading (app_ui w)); [lia | discriminate].
    + rewrite filter_cons_False in Hcount by (by compute).
      simpl. split; [by rewrite rev_app_distr, Hc |].
      rewrite filter_app, length_app.
      rewrite (filter_cons_False _ (_, UiHideSuccess)) by (by compute).
      simpl. lia.
    + rewrite filter_cons_False in Hcount by (by compute).
      simpl. split; [by rewrite Hc, filter_rev | done].
    + rewrite filter_cons_False in Hcount by (by compute). done.
Qed.

Lemma app_synchronised w : app_reachable w → app_sync w.
Proof.
  apply app_reachable_ind.
  - intros t0. by split.
  - apply app_sync_change.
Qed.



(* ================================================================= *)
(** ** What reaches the store and the error map, calls in flight included *)

(** Stored contacts are validated, and so is every draft travelling with
    a pending [createContact] call. *)
Definition app_validated (w : AppWorld) : Prop :=
  Forall validated_contact (api_contacts (app_backend w)) ∧
  ∀ due d, (due, UiSubmit d) ∈ app_timers w → accepted_draft d.

Lemma app_validated_change w w' :
  app_validated w → app_change w w' → app_validated w'.
Proof.
  intros [Hs Ht] Hch. unfold app_validated.
  destruct Hch as [f v|f Hf|Hd|id Hid|w' Hui Hb Htm|iso due t rest Hpop Hdue].
  - done.
  - done.
  - rewrite handleSubmit_click_store, handleSubmit_click_timers.
    split; [done |].
    destruct (validateForm (app_ui w)).2 eqn:Hv; [| done].
    intros due d Hin. apply elem_of_app in Hin as [Hin|Hin];
      [by apply (Ht due) |].
    apply list_elem_of_singleton in Hin. inversion Hin; subst.
    apply validateForm_accepts in Hv as (? & ? & ? & ?).
    by exists (formData (app_ui w)).
  - simpl. split; [done |]. intros due d Hin.
    apply elem_of_app in Hin as [Hin|Hin]; [by apply (Ht due) |].
    apply list_elem_of_singleton in Hin. by inversion Hin.
  - by rewrite Hb, Htm.
  - apply pop_due_perm in Hpop.
    assert (Hrest : ∀ due' d', (due', UiSubmit d') ∈ rest → accepted_draft d').
    { intros due' d' Hin. apply (Ht due'). rewrite Hpop. by right. }
    destruct t as [|d|id|]; simpl.
    + done.
    + split.
      * apply Forall_app. split; [done |]. constructor; [| constructor].
        destruct (Ht due d) as (fd & -> & ? & ? & ? & ?);
          [rewrite Hpop; by left |].
        by apply newContact_validated.
      * intros due' d' Hin. apply elem_of_app in Hin as [Hin|Hin];
          [by apply (Hrest due') |].
        apply list_elem_of_singleton in Hin. by inversion Hin.
    + split; [| done]. apply Forall_forall. intros c Hc.
      apply list_elem_of_filter in Hc as [_ Hc].
      by apply (proj1 (Forall_forall _ _) Hs).
    + done.
Qed.

(** X20: also while calls are in flight, every contact in the store and
    every displayed card has exactly the six properties, a name of at
    least two characters once trimmed, an email and a non-blank phone
    that pass their checks and an [_id] printed from a clock reading; and
    every draft travelling with a pending [createContact] call was
    accepted by [validateForm] at its click. *)
Theorem only_validated_contacts_in_flight (w : AppWorld) :
  app_reachable w →
  Forall validated_contact (api_contacts (app_backend w)) ∧
  Forall validated_contact (contacts (app_ui w)) ∧
  ∀ due d, (due, UiSubmit d) ∈ app_timers w → accepted_draft d.
Proof.
  intros Hw.
  assert (Hv : app_validated w).
  { revert w Hw. apply app_reachable_ind.
    - intros t0. split; [constructor |].
      intros due d Hin. apply list_elem_of_singleton in Hin.
      by inversion Hin.
    - apply app_validated_change. }
  destruct Hv as [Hs Ht]. split; [done |]. split; [| done].
  destruct (app_synchronised w Hw) as [-> _].
  apply Forall_forall. intros c Hc. apply list_elem_of_In, in_rev in Hc.
  apply (proj1 (Forall_forall _ _) Hs). by apply list_elem_of_In.
Qed.

Lemma only_validated_contacts_in_flight_witness :
  Forall validated_contact (api_contacts (app_backend flight_midway)) ∧
  Forall validated_contact (contacts (app_ui flight_midway)) ∧
  ∀ due d, (due, UiSubmit d) ∈ app_timers flight_midway → accepted_draft d.
Proof.
  apply (only_validated_contacts_in_flight flight_midway
           flight_midway_reachable).
Defined.

Definition app_errors_ok (w : AppWorld) : Prop :=
  ∀ k m, errors (app_ui w) !! k = Some m →
    k ∈ ["name"; "email"; "phone"] ∧ (m = [] ∨ m ∈ messages).

Lemma app_errors_change w w' :
  app_errors_ok w → app_change w w' → app_errors_ok w'.
Proof.
  intros IH Hch k m Hk.
  destruct Hch as [f v|f Hf|Hd|id Hid|w' Hui Hb Htm|iso due t rest Hpop Hdue].
  - simpl in Hk. rewrite handleChange_unfold in Hk. simpl in Hk.
    destruct (prop_truthy (errors (app_ui w) !! key f)) eqn:Ht;
      [| by apply IH].
    rewrite lookup_insert in Hk. case_decide; [| by apply IH].
    subst k. inversion Hk; subst m. split; [| by left].
    destruct (errors (app_ui w) !! key f) as [m'|] eqn:Hm; [| discriminate].
    by apply (IH _ m').
  - change (errors (handleBlur (key f) (app_ui w)) !! k = Some m) in Hk.
    rewrite (handleBlur_field f _ Hf) in Hk.
    simpl in Hk. rewrite lookup_update_error in Hk.
    case_decide; [| by apply IH]. subst k.
    split; [by apply key_of_field | right].
    by apply (check_field_messages f (formData (app_ui w))).
  - rewrite handleSubmit_click_ui in Hk.
    assert (Hn : newErrors (formData (app_ui w)) !! k = Some m)
      by (by destruct (validateForm (app_ui w)).2).
    apply newErrors_entry in Hn as [? ?]. auto.
  - by apply IH.
  - rewrite Hui in Hk. by apply IH.
  - destruct t as [|d|id|]; simpl in Hk.
    + by apply IH.
    + by rewrite lookup_empty in Hk.
    + by apply IH.
    + by apply IH.
Qed.

(** X21: also while calls are in flight, the error map has no key
    besides [name], [email] and [phone], and each entry is one of the six
    messages of [validateForm] and [handleBlur] or the empty string left
    by [handleChange]. *)
Theorem error_map_contents_in_flight (w : AppWorld) :
  app_reachable w →
  ∀ k m, errors (app_ui w) !! k = Some m →
    k ∈ ["name"; "email"; "phone"] ∧ (m = [] ∨ m ∈ messages).
Proof.
  revert w. apply (app_reachable_ind app_errors_ok).
  - intros t0 k m Hk. simpl in Hk. by rewrite lookup_empty in Hk.
  - apply app_errors_change.
Qed.

Lemma error_map_contents_in_flight_witness :
  errors (app_ui flight_early) !! "name" = Some msg_name_short ∧
  "name" ∈ ["name"; "email"; "phone"] ∧
  (msg_name_short = [] ∨ msg_name_short ∈ messages).
Proof.
  assert (H : errors (app_ui flight_early) !! "name" = Some msg_name_short)
    by (vm_compute; reflexivity).
  split; [exact H |].
  exact (error_map_contents_in_flight flight_early flight_early_reachable
           "name" msg_name_short H).
Defined.
